(** * The scs fleet supervisor: reconciliation engine

    A shallow embedding of [src/scs/agent/supervisor.py] (the agent variant)
    and of [src/scs/supervisor.py] (the earlier variant), followed by the
    properties of the reconciler stated in the specification.

    The supervisor is single-threaded cooperative code that talks to three
    external collaborators: the nodes (through broadcast commands), the
    model store, and the clock.  They are gathered in one interface,
    [External], whose state is threaded explicitly; everything the
    supervisor does to the outside is written to an observation list. *)

From Stdlib Require Import QArith Lqa.
From stdpp Require Import gmap strings list.

Open Scope Z_scope.

(** ** Python values, exceptions *)

(** Replies of broadcast commands are dynamically typed; the code inspects
    them with [is None], subscripting and [!=]. *)
#[local] Unset Elimination Schemes.
Inductive PyVal :=
| PNone
| PBool (b : bool)
| PInt (z : Z)
| PStr (s : string)
| PDict (items : list (string * PyVal)).
#[local] Set Elimination Schemes.

(** [Exc_Exception] stands for any other subclass of [Exception];
    [Exc_BaseOnly] for the classes deriving from [BaseException] alone
    ([KeyboardInterrupt], [SystemExit], ...), which [except Exception]
    lets through. *)
Inductive Exn :=
| KeyError (key : string)
| TypeError (what : string)
| Exc_Exception (cls : string)
| Exc_BaseOnly (cls : string).

Definition is_Exception (e : Exn) : bool :=
  match e with Exc_BaseOnly _ => false | _ => true end.

Definition is_TypeError_or_KeyError (e : Exn) : bool :=
  match e with KeyError _ | TypeError _ => true | _ => false end.

Inductive Result (A : Type) :=
| Ok (a : A)
| Raise (e : Exn).
Arguments Ok {A} a.
Arguments Raise {A} e.

(** [d[k]] on a reply: [KeyError] for a dict without the key, [TypeError]
    for anything that is not a dict. *)
Fixpoint assoc (k : string) (items : list (string * PyVal)) : option PyVal :=
  match items with
  | [] => None
  | (k', x) :: rest => if String.eqb k k' then Some x else assoc k rest
  end.

Definition subscript (d : PyVal) (k : string) : Result PyVal :=
  match d with
  | PDict items =>
      match assoc k items with
      | Some x => Ok x
      | None => Raise (KeyError k)
      end
  | _ => Raise (TypeError "unsubscriptable")
  end.

(** [n != x] for an integer [n] of the model and a reply value [x]. *)
Definition int_ne (n : Z) (x : PyVal) : bool :=
  match x with
  | PInt z => negb (n =? z)
  | PBool b => negb (n =? (if b then 1 else 0))
  | _ => true
  end.

(** ** Data model *)

(** The [Node] record of the model store, as the supervisor reads it.
    [queues] are the declared queue names ([node.queues] in the agent
    variant, the names of [node.queues.enabled()] in the earlier one). *)
Record Node := mkNode {
  pk : option Z;
  name : string;
  is_enabled : bool;
  queues : list string;
  direct_queue : string;
  max_concurrency : Z;
  min_concurrency : Z }.

(** [node.pk] used as a condition. *)
Definition pk_truthy (n : Node) : bool :=
  match pk n with Some z => negb (z =? 0) | None => false end.

(** The registry is keyed by the bound method [node.restart]; bound
    methods hash and compare by their instance, and model instances by
    their primary key. *)
Definition restart_key (n : Node) : option Z := pk n.

(** Broadcast commands of the node capability. *)
Inductive Cmd :=
| Alive
| Restart
| Stop
| RespondsToPing (timeout : Q)
| ConsumingFrom
| AddQueue (q : string)
| CancelQueue (q : string)
| Stats
| Autoscale (max min : Z).

Inductive Level := DEBUG | INFO | WARN | ERROR.

Inductive LogArg :=
| ArgNode (n : Node)
| ArgStr (s : string)
| ArgQ (q : Q)
| ArgZ (z : Z)
| ArgCmd (c : Cmd)
| ArgExn (e : Exn).

(** What the supervisor does to the outside, in order. *)
Inductive Obs :=
| Broadcast (n : Node) (c : Cmd)
| Disable (n : Node)
| Log (lvl : Level) (fmt : string) (args : list LogArg)
| Stderr (fmt : string) (args : list LogArg)
| RespondToPing
| EventSend (ev : nat) (value : bool).

(** What happens on the broker connection while an insured call is in
    progress: a connection error (the [errback] is called) or a revival
    (the [on_revive] callback is called). *)
Inductive Incident :=
| ConnError (exc : Exn) (interval : Q)
| Revived.

Record Reply (A : Type) := mkReply {
  incidents : list Incident;
  outcome : Result A }.
Arguments mkReply {A} _ _.
Arguments incidents {A} _.
Arguments outcome {A} _.

#[global] Instance Q_eq_dec : EqDecision Q.
Proof. solve_decision. Defined.
#[global] Instance Exn_eq_dec : EqDecision Exn.
Proof. solve_decision. Defined.
#[global] Instance Node_eq_dec : EqDecision Node.
Proof. solve_decision. Defined.
#[global] Instance Cmd_eq_dec : EqDecision Cmd.
Proof. solve_decision. Defined.
#[global] Instance Level_eq_dec : EqDecision Level.
Proof. solve_decision. Defined.
#[global] Instance LogArg_eq_dec : EqDecision LogArg.
Proof. solve_decision. Defined.
#[global] Instance Obs_eq_dec : EqDecision Obs.
Proof. solve_decision. Defined.

(** The external collaborators: clock, node capability, model store.
    [E] is their state; every call may change it. *)
Class External (E : Type) := {
  time_time : E -> Q;
  node_alive : Node -> E -> Reply bool * E;
  node_restart : Node -> E -> Result unit * E;
  node_stop : Node -> E -> Result unit * E;
  node_responds_to_ping : Node -> Q -> E -> Reply bool * E;
  node_consuming_from : Node -> E -> Reply (option (list (string * PyVal))) * E;
  node_add_queue : Node -> string -> E -> Reply unit * E;
  node_cancel_queue : Node -> string -> E -> Reply unit * E;
  node_stats : Node -> E -> Reply PyVal * E;
  node_autoscale : Node -> Z -> Z -> E -> Reply unit * E;
  node_disable : Node -> E -> E }.

(** ** Rationals in reduced form

    Times and token counts are Python floats in the source; they are
    modelled as exact rationals kept in lowest terms. *)
Definition qadd (a b : Q) : Q := Qred (a + b).
Definition qsub (a b : Q) : Q := Qred (a - b).
Definition qmul (a b : Q) : Q := Qred (a * b).
Definition qle (a b : Q) : bool := Qle_bool a b.
Definition qlt (a b : Q) : bool := negb (Qle_bool b a).
Definition qmin (a b : Q) : Q := if qlt b a then b else a.
Definition q_truthy (a : Q) : bool := negb (Qeq_bool a 0).

(** ** celery.datastructures.TokenBucket

    The bucket class of the celery library, transcribed from the library:
    a bucket starts full; [can_consume] first refills it for the time
    elapsed since the last refill, then takes the tokens if there are
    enough. *)

Record TokenBucket := mkTokenBucket {
  fill_rate : Q;
  capacity : Q;
  _tokens : Q;
  timestamp : Q }.

Definition TokenBucket_init (rate now : Q) : TokenBucket :=
  {| fill_rate := rate; capacity := 1; _tokens := 1; timestamp := now |}.

Definition _get_tokens (now : Q) (b : TokenBucket) : TokenBucket :=
  if qlt (_tokens b) (capacity b) then
    let delta := qmul (fill_rate b) (qsub now (timestamp b)) in
    {| fill_rate := fill_rate b; capacity := capacity b;
       _tokens := qmin (capacity b) (qadd (_tokens b) delta);
       timestamp := now |}
  else b.

Definition can_consume (tokens : Q) (now : Q) (b : TokenBucket)
  : bool * TokenBucket :=
  let b' := _get_tokens now b in
  if qle tokens (_tokens b') then
    (true, {| fill_rate := fill_rate b'; capacity := capacity b';
              _tokens := qsub (_tokens b') tokens;
              timestamp := timestamp b' |})
  else (false, b').

(** [rate("1/m")]: one token per sixty seconds. *)
Definition restart_max_rate : Q := 1 # 60.

(** ** kombu.utils.fxrangemax

    The supervisor imports [fxrangemax] from the kombu library; it is not
    part of the repository and is transcribed here from the library.  The
    generator [fxrangemax(start, stop, step, max)] starts with
    [sum_, cur = 0, start]; each round it ends if [sum_ >= max], and
    otherwise yields [cur], moves [cur] to [min(cur + step, stop)] (to
    [cur + step] without a [stop]) and adds the new [cur] to [sum_].  So
    [max] bounds the sum of what is scheduled, not the number of values.
    The generator need not end, so the list of what it yields is computed
    with fuel. *)
Fixpoint fxrangemax_loop (fuel : nat) (stop : option Q) (step max sum_ cur : Q)
  : option (list Q) :=
  match fuel with
  | O => None
  | S fuel' =>
      if qle max sum_ then Some []
      else
        let cur' :=
          match stop with
          | Some s => if q_truthy s then qmin (qadd cur step) s
                      else qadd cur step
          | None => qadd cur step
          end in
        match fxrangemax_loop fuel' stop step max (qadd sum_ cur') cur' with
        | Some l => Some (cur :: l)
        | None => None
        end
  end.

Definition fxrangemax (fuel : nat) (start : Q) (stop : option Q) (step max : Q)
  : option (list Q) :=
  fxrangemax_loop fuel stop step max 0 (Qred start).

(** ** The supervisor's state and its monad *)

Inductive Variant := Agent | Legacy.

(** The three actions the public API puts on the queue. *)
Inductive Action := do_verify_node | do_restart_node | do_stop_node.

(** Keyword arguments of a request: the agent variant passes
    [{"ratelimit": ratelimit}] for [verify] and [{}] otherwise. *)
Record Kwargs := mkKwargs { kw_ratelimit : option bool }.

Definition no_kwargs : Kwargs := {| kw_ratelimit := None |}.

Record Request := mkRequest {
  req_nodes : list Node;
  req_event : nat;
  req_action : Action;
  req_kwargs : Kwargs }.

Section Supervisor.

Context {E : Type} `{External E}.

(** [env] is the state of the collaborators; [_buckets], [paused], [queue],
    [should_stop] and [_rinfo_iterations] are attributes of the supervisor
    ([_rinfo_iterations] is the counter of its [SilenceRepeated] logger);
    [broker_last_revived] belongs to the global [state] object; [next_event]
    numbers the [Event()] objects created so far. *)
Record World := mkWorld {
  env : E;
  _buckets : gmap (option Z) TokenBucket;
  paused : bool;
  broker_last_revived : option Q;
  queue : list Request;
  should_stop : bool;
  _rinfo_iterations : nat;
  next_event : nat }.

Definition set_env (e : E) (w : World) : World :=
  mkWorld e (_buckets w) (paused w) (broker_last_revived w) (queue w)
          (should_stop w) (_rinfo_iterations w) (next_event w).
Definition set_buckets (b : gmap (option Z) TokenBucket) (w : World) : World :=
  mkWorld (env w) b (paused w) (broker_last_revived w) (queue w)
          (should_stop w) (_rinfo_iterations w) (next_event w).
Definition set_paused (p : bool) (w : World) : World :=
  mkWorld (env w) (_buckets w) p (broker_last_revived w) (queue w)
          (should_stop w) (_rinfo_iterations w) (next_event w).
Definition set_broker_last_revived (t : option Q) (w : World) : World :=
  mkWorld (env w) (_buckets w) (paused w) t (queue w)
          (should_stop w) (_rinfo_iterations w) (next_event w).
Definition set_queue (q : list Request) (w : World) : World :=
  mkWorld (env w) (_buckets w) (paused w) (broker_last_revived w) q
          (should_stop w) (_rinfo_iterations w) (next_event w).
Definition set_rinfo_iterations (n : nat) (w : World) : World :=
  mkWorld (env w) (_buckets w) (paused w) (broker_last_revived w) (queue w)
          (should_stop w) n (next_event w).
Definition set_next_event (n : nat) (w : World) : World :=
  mkWorld (env w) (_buckets w) (paused w) (broker_last_revived w) (queue w)
          (should_stop w) (_rinfo_iterations w) n.

(** A run of a piece of code from a world: how it ended, the world it
    left, and what it did to the outside meanwhile. *)
Record Outcome (A : Type) := mkOutcome {
  res : Result A;
  post : World;
  out : list Obs }.
Arguments mkOutcome {A} _ _ _.
Arguments res {A} _.
Arguments post {A} _.
Arguments out {A} _.

Definition M (A : Type) : Type := World -> Outcome A.

Definition ret {A} (a : A) : M A := fun w => mkOutcome (Ok a) w [].

Definition raise {A} (e : Exn) : M A := fun w => mkOutcome (Raise e) w [].

Definition bind {A B} (m : M A) (k : A -> M B) : M B :=
  fun w =>
    let o := m w in
    match res o with
    | Ok a => let o' := k a (post o) in
              mkOutcome (res o') (post o') (out o ++ out o')
    | Raise e => mkOutcome (Raise e) (post o) (out o)
    end.

Notation "x <- m ;; k" := (bind m (fun x => k))
  (at level 100, m at next level, right associativity).
Notation "m ;; k" := (bind m (fun _ => k))
  (at level 100, right associativity).

(** [try: body except <classes accepted by catches>, exc: handler]. *)
Definition try_except {A} (body : M A) (catches : Exn -> bool)
           (handler : Exn -> M A) : M A :=
  fun w =>
    let o := body w in
    match res o with
    | Ok a => o
    | Raise e =>
        if catches e then
          let o' := handler e (post o) in
          mkOutcome (res o') (post o') (out o ++ out o')
        else o
    end.

(** [try: body finally: final]. *)
Definition try_finally {A} (body : M A) (final : M unit) : M A :=
  fun w =>
    let o := body w in
    let o' := final (post o) in
    match res o' with
    | Ok _ => mkOutcome (res o) (post o') (out o ++ out o')
    | Raise e => mkOutcome (Raise e) (post o') (out o ++ out o')
    end.

Fixpoint for_each {A} (l : list A) (body : A -> M unit) : M unit :=
  match l with
  | [] => ret tt
  | x :: rest => body x ;; for_each rest body
  end.

Definition emit (o : Obs) : M unit := fun w => mkOutcome (Ok tt) w [o].
Definition get {A} (f : World -> A) : M A := fun w => mkOutcome (Ok (f w)) w [].
Definition modify (f : World -> World) : M unit :=
  fun w => mkOutcome (Ok tt) (f w) [].
Definition lift_result {A} (r : Result A) : M A :=
  match r with Ok a => ret a | Raise e => raise e end.

(** A call to a collaborator. *)
Definition external {A} (call : E -> A * E) : M A :=
  fun w => let '(a, e) := call (env w) in mkOutcome (Ok a) (set_env e w) [].

(** Logging methods of the thread base class, and its ping responder. *)
Definition log (lvl : Level) (fmt : string) (args : list LogArg) : M unit :=
  emit (Log lvl fmt args).
Definition respond_to_ping : M unit := emit RespondToPing.

(** ** Pause, resume, broker revival *)

Definition pause (v : Variant) : M unit :=
  match v with
  | Agent =>
      respond_to_ping ;;
      p <- get paused ;;
      if negb p then
        log DEBUG "pausing" [] ;;
        modify (set_paused true)
      else ret tt
  | Legacy => modify (set_paused true)
  end.

Definition resume (v : Variant) : M unit :=
  match v with
  | Agent =>
      p <- get paused ;;
      if p then
        log DEBUG "resuming" [] ;;
        modify (set_paused false)
      else ret tt
  | Legacy => modify (set_paused false)
  end.

(** Modelled from the spec: [state.on_broker_revive], of the [state]
    module, which is not among the sources.  It records
    [broker_last_revived = now()] and resumes the reconciler. *)
Definition on_broker_revive (v : Variant) : M unit :=
  now <- get (fun w => time_time (env w)) ;;
  modify (set_broker_last_revived (Some now)) ;;
  resume v.

(** Modelled from the spec: [state.time_since_broker_revived], of the same
    module: [now() - broker_last_revived]. *)
Definition time_since_broker_revived (w : World) : option Q :=
  match broker_last_revived w with
  | Some t => Some (qsub (time_time (env w)) t)
  | None => None
  end.

Definition wait_after_broker_revived : Q := 35.

(** ** insured: a broadcast that survives connection failures *)

Definition errback (v : Variant) (c : Cmd) (exc : Exn) (interval : Q) : M unit :=
  match v with
  | Agent =>
      log ERROR "Error while trying to broadcast %r: %r\n" [ArgCmd c; ArgExn exc] ;;
      pause v
  | Legacy =>
      emit (Stderr "Error while trying to broadcast %r: %r\n" [ArgCmd c; ArgExn exc]) ;;
      pause v
  end.

Definition on_revive (v : Variant) : M unit :=
  match v with
  | Agent => on_broker_revive v
  | Legacy => on_broker_revive v ;; resume v
  end.

Definition on_incident (v : Variant) (c : Cmd) (i : Incident) : M unit :=
  match i with
  | ConnError exc interval => errback v c exc interval
  | Revived => on_revive v
  end.

Definition insured {A} (v : Variant) (node : Node) (c : Cmd)
           (call : E -> Reply A * E) : M A :=
  emit (Broadcast node c) ;;
  reply <- external call ;;
  for_each (incidents reply) (on_incident v c) ;;
  lift_result (outcome reply).

(** [ib(fun, ...)] is [blocking(insured, ...)]; the earlier variant writes
    the latter out. *)
Definition ib {A} := @insured A.

(** [blocking(node.method)]: the command goes out without the wrapper. *)
Definition blocking (node : Node) (c : Cmd) (call : E -> Result unit * E) : M unit :=
  emit (Broadcast node c) ;;
  r <- external call ;;
  lift_result r.

(** ** The restart rate limiter *)

(** [self._buckets[key]]: the registry is a [defaultdict], a missing
    bucket is created (full, stamped with the current time) by the
    lookup. *)
Definition buckets_getitem (key : option Z) : M unit :=
  b <- get _buckets ;;
  match b !! key with
  | Some _ => ret tt
  | None =>
      now <- get (fun w => time_time (env w)) ;;
      modify (fun w => set_buckets
                (<[key := TokenBucket_init restart_max_rate now]> (_buckets w)) w)
  end.

(** [bucket.can_consume(1)] on the bucket object the registry holds under
    [key]: the bucket is updated in place. *)
Definition bucket_can_consume (key : option Z) (tokens : Q) : M bool :=
  b <- get _buckets ;;
  match b !! key with
  | Some bucket =>
      now <- get (fun w => time_time (env w)) ;;
      let '(yes, bucket') := can_consume tokens now bucket in
      modify (fun w => set_buckets (<[key := bucket']> (_buckets w)) w) ;;
      ret yes
  | None => raise (KeyError "bucket")
  end.

(** [self._buckets.pop(key)] and [self._buckets.pop(key, None)]. *)
Definition buckets_pop (key : option Z) : M unit :=
  b <- get _buckets ;;
  match b !! key with
  | Some _ => modify (fun w => set_buckets (delete key (_buckets w)) w)
  | None => raise (KeyError "bucket")
  end.

Definition buckets_pop_default (key : option Z) : M unit :=
  modify (fun w => set_buckets (delete key (_buckets w)) w).

(** Modelled from the spec: [Node.disable], of the [models] module, which
    is not among the sources: a persistent flag flip in the model store. *)
Definition disable (node : Node) : M unit :=
  emit (Disable node) ;;
  modify (fun w => set_env (node_disable node (env w)) w).

(** ** Verification steps *)

(** Timeouts of the liveness probes after a restart:
    [fxrangemax(0.1, 1, 0.4, 30)] in the agent variant, the tuple
    [(0.1, 0.5, 1, 1, 1, 1)] in the earlier one. *)
Definition ping_schedule (v : Variant) : list Q :=
  match v with
  | Agent => default [] (fxrangemax 64 (1 # 10) (Some 1%Q) (4 # 10) 30)
  | Legacy => [1 # 10; 1 # 2; 1; 1; 1; 1]%Q
  end.

(** The [for i in ...: ... break] loop; its value is [is_alive]. *)
Fixpoint ping_loop (v : Variant) (node : Node) (schedule : list Q) : M bool :=
  match schedule with
  | [] => ret false
  | i :: rest =>
      log INFO "%s pingWithTimeout: %s" [ArgNode node; ArgQ i] ;;
      match v with Agent => respond_to_ping | Legacy => ret tt end ;;
      r <- insured v node (RespondsToPing i) (node_responds_to_ping node i) ;;
      if r : bool then ret true else ping_loop v node rest
  end.

Definition _verify_restart_node (v : Variant) (node : Node) : M unit :=
  log WARN "%s node.restart" [ArgNode node] ;;
  blocking node Restart (node_restart node) ;;
  is_alive <- ping_loop v node (ping_schedule v) ;;
  if is_alive : bool then
    log WARN "%s successfully restarted" [ArgNode node]
  else
    log WARN "%s node doesn't respond after restart" [ArgNode node].

Definition _can_restart : M bool :=
  get (fun w =>
         match broker_last_revived w with
         | None => true
         | Some _ =>
             match time_since_broker_revived w with
             | Some d => qlt wait_after_broker_revived d
             | None => true
             end
         end).

Definition _do_restart_node (v : Variant) (node : Node) (ratelimit : bool)
  : M unit :=
  buckets_getitem (restart_key node) ;;
  if ratelimit then
    can <- _can_restart ;;
    if can : bool then
      token <- bucket_can_consume (restart_key node) 1 ;;
      if token : bool then
        _verify_restart_node v node
      else
        log ERROR
            match v with
            | Agent => "%s node.disabled: Restarted too often"
            | Legacy => "%s node.disabled: Restarted too many times"
            end [ArgNode node] ;;
        disable node ;;
        buckets_pop (restart_key node)
    else ret tt
  else
    buckets_pop_default (restart_key node) ;;
    _verify_restart_node v node.

Definition _do_stop_node (node : Node) : M unit :=
  log WARN "%s node.shutdown" [ArgNode node] ;;
  blocking node Stop (node_stop node).

(** [set(l)] is the list without its duplicates, [a ^ b] the elements of
    [a] not in [b] followed by those of [b] not in [a].  Python iterates a
    set in an order of its own; nothing below depends on the order. *)
Definition set_of (l : list string) : list string := remove_dups l.

Definition symmetric_difference (a b : list string) : list string :=
  list_difference a b ++ list_difference b a.

(** The body of the [for queue in consuming_from ^ queues] loop. *)
Definition reconcile_queue (v : Variant) (node : Node) (queues_ : list string)
           (queue_ : string) : M unit :=
  if bool_decide (queue_ ∈ queues_) then
    log WARN "%s: node.consume_from: %s" [ArgNode node; ArgStr queue_] ;;
    ib v node (AddQueue queue_) (node_add_queue node queue_)
  else if String.eqb queue_ (direct_queue node) then
    ret tt
  else
    log WARN "%s: node.cancel_consume: %s" [ArgNode node; ArgStr queue_] ;;
    ib v node (CancelQueue queue_) (node_cancel_queue node queue_).

Definition _verify_node_queues (v : Variant) (node : Node) : M unit :=
  let queues_ := set_of (queues node) in
  reply <- ib v node ConsumingFrom (node_consuming_from node) ;;
  match reply with
  | None => ret tt
  | Some items =>
      let consuming_from := set_of (map fst items) in
      for_each (symmetric_difference consuming_from queues_)
               (reconcile_queue v node queues_)
  end.

(** The statement [try: current = insured(node, node.stats)["autoscaler"]
    except (TypeError, KeyError): return]; [None] stands for the return. *)
Definition current_autoscaler (v : Variant) (node : Node) : M (option PyVal) :=
  try_except
    (stats <- insured v node Stats (node_stats node) ;;
     c <- lift_result (subscript stats "autoscaler") ;;
     ret (Some c))
    is_TypeError_or_KeyError
    (fun _ => ret None).

Definition _verify_node_processes (v : Variant) (node : Node) : M unit :=
  let max := max_concurrency node in
  let min := min_concurrency node in
  current <- current_autoscaler v node ;;
  match current with
  | None => ret tt
  | Some current =>
      cmax <- lift_result (subscript current "max") ;;
      differs <- (if int_ne max cmax then ret true
                  else cmin <- lift_result (subscript current "min") ;;
                       ret (int_ne min cmin)) ;;
      if differs : bool then
        log WARN "%s: node.set_autoscale max=%r min=%r"
            [ArgNode node; ArgZ max; ArgZ min] ;;
        ib v node (Autoscale max min) (node_autoscale node max min)
      else ret tt
  end.

(** The body both variants share once they have decided to verify. *)
Definition verify_node_body (v : Variant) (node : Node) (ratelimit : bool)
  : M unit :=
  if is_enabled node && pk_truthy node then
    alive <- ib v node Alive (node_alive node) ;;
    (if negb alive then _do_restart_node v node ratelimit else ret tt) ;;
    _verify_node_processes v node ;;
    _verify_node_queues v node
  else
    alive <- ib v node Alive (node_alive node) ;;
    if alive : bool then _do_stop_node node else ret tt.

(** The agent variant checks [paused] and hands its [ratelimit] on; the
    earlier variant does not look at [paused] and always rate-limits. *)
Definition _do_verify_node (v : Variant) (node : Node) (ratelimit : bool)
  : M unit :=
  match v with
  | Agent =>
      p <- get paused ;;
      if negb p then verify_node_body v node ratelimit else ret tt
  | Legacy => verify_node_body v node true
  end.

(** ** Requests and the reconciler loop *)

(** [Event()] followed by [queue.put_nowait(...)]; the default queue
    ([LightQueue()]) has no bound. *)
Definition _request (nodes : list Node) (action : Action) (kwargs : Kwargs)
  : M nat :=
  event <- get next_event ;;
  modify (set_next_event (S event)) ;;
  modify (fun w => set_queue (queue w ++ [mkRequest nodes event action kwargs]) w) ;;
  ret event.

(** The earlier variant returns [None] without a request when paused. *)
Definition verify (v : Variant) (nodes : list Node) (ratelimit : bool)
  : M (option nat) :=
  match v with
  | Agent =>
      event <- _request nodes do_verify_node {| kw_ratelimit := Some ratelimit |} ;;
      ret (Some event)
  | Legacy =>
      p <- get paused ;;
      if negb p then
        event <- _request nodes do_verify_node no_kwargs ;;
        ret (Some event)
      else ret None
  end.

Definition restart (nodes : list Node) : M nat :=
  _request nodes do_restart_node no_kwargs.

(** [shutdown] in the agent variant, [stop] in the earlier one. *)
Definition shutdown (nodes : list Node) : M nat :=
  _request nodes do_stop_node no_kwargs.

(** [action(node, **kwargs)] in the agent variant, [action(node)] in the
    earlier one. *)
Definition call_action (v : Variant) (a : Action) (node : Node) (kw : Kwargs)
  : M unit :=
  match v with
  | Agent =>
      match a with
      | do_verify_node => _do_verify_node v node (default false (kw_ratelimit kw))
      | do_restart_node => _do_restart_node v node (default false (kw_ratelimit kw))
      | do_stop_node =>
          match kw_ratelimit kw with
          | None => _do_stop_node node
          | Some _ => raise (TypeError "unexpected keyword argument")
          end
      end
  | Legacy =>
      match a with
      | do_verify_node => _do_verify_node v node true
      | do_restart_node => _do_restart_node v node false
      | do_stop_node => _do_stop_node node
      end
  end.

(** celery.log.SilenceRepeated around [self.info], [max_iterations=30]
    (a class of the celery library): the message is logged once the
    counter has reached the maximum, which resets it; otherwise the
    counter goes up. *)
Definition _rinfo (msg : string) : M unit :=
  n <- get _rinfo_iterations ;;
  if (30 <=? n)%nat then
    log INFO msg [] ;;
    modify (set_rinfo_iterations 0)
  else modify (set_rinfo_iterations (S n)).

(** What [run] does with a request once it is off the queue: the
    [try: for node in nodes: try: ... except Exception ... finally:
    event.send(True)] statement, for any action. *)
Definition process_request (action : Node -> M unit) (nodes : list Node)
           (event : nat) : M unit :=
  try_finally
    (for_each nodes
       (fun node =>
          try_except (action node) is_Exception
            (fun exc => log ERROR "Event caused exception: %r" [ArgExn exc])))
    (emit (EventSend event true)).

(** One pass of the [while] loop of [run].  With an empty queue the agent
    variant times out after a second and answers pings; the earlier
    variant waits in [queue.get()], which is no step at all here. *)
Definition run_iteration (v : Variant) : M unit :=
  q <- get queue ;;
  match q with
  | [] =>
      match v with
      | Agent => respond_to_ping
      | Legacy => ret tt
      end
  | r :: rest =>
      modify (set_queue rest) ;;
      match v with
      | Agent => respond_to_ping ;; _rinfo "wake-up"
      | Legacy => log DEBUG "wake-up" []
      end ;;
      process_request (fun node => call_action v (req_action r) node (req_kwargs r))
                      (req_nodes r) (req_event r)
  end.

(** [_verify_all], the callback of the periodic timer that [before]
    starts (agent variant).  The attribute [_last_update] is passed in and
    handed back; [ready] tells which events have been sent
    ([Event.ready()]); [all_nodes] is what [Node.objects.all()] returns.
    [wait()] on an event that is ready returns at once and a
    [GreenletExit] is swallowed, so collecting the result changes
    nothing. *)
Definition _verify_all (force : bool) (_last_update : option nat)
           (ready : nat -> bool) (all_nodes : list Node) : M (option nat) :=
  let force :=
    match _last_update with
    | Some event => if ready event then true else force
    | None => force
    end in
  if match _last_update with None => true | Some _ => force end then
    verify Agent all_nodes true
  else ret _last_update.

End Supervisor.

Arguments World E : clear implicits.
Arguments Outcome E A : clear implicits.
Arguments M E A : clear implicits.
Arguments mkOutcome {E A} _ _ _.
Arguments res {E A} _.
Arguments post {E A} _.
Arguments out {E A} _.

(** ** Notions the properties are stated with *)

(** Log lines, writes to stderr and ping responses: what a call leaves in
    the observations besides commands to nodes, changes of the model and
    completions. *)
Definition noise (o : Obs) : bool :=
  match o with
  | Log _ _ _ | Stderr _ _ | RespondToPing => true
  | _ => false
  end.

Definition is_noise (o : Obs) : Prop := noise o = true.

(** What is left of the observations once the noise is taken out. *)
Definition effects (l : list Obs) : list Obs :=
  filter (fun o => noise o = false) l.

Definition is_debug (o : Obs) : bool :=
  match o with Log DEBUG _ _ => true | _ => false end.

(** The commands sent to nodes, in order. *)
Definition broadcasts (l : list Obs) : list (Node * Cmd) :=
  omap (fun o => match o with Broadcast n c => Some (n, c) | _ => None end) l.

(** The timeouts of the liveness probes sent, in order. *)
Definition probes (l : list Obs) : list Q :=
  omap (fun o => match o with
                 | Broadcast _ (RespondsToPing t) => Some t
                 | _ => None
                 end) l.

Definition occurrences {A} `{EqDecision A} (x : A) (l : list A) : nat :=
  length (filter (fun y => y = x) l).

(** Everything but debug lines. *)
Definition visible (l : list Obs) : list Obs :=
  filter (fun o => is_debug o = false) l.

Section Notions.

Context {E : Type} `{External E}.

(** [m] only ever emits observations satisfying [P]. *)
Definition emits (P : Obs -> Prop) {A} (m : M E A) : Prop :=
  forall w, Forall P (out (m w)).

(** [m] leaves the component [f] of the world as it found it. *)
Definition keeps {X} (f : World E -> X) {A} (m : M E A) : Prop :=
  forall w, f (post (m w)) = f w.

(** The broker gate in the words of the specification: no revival
    recorded, or more than [wait_after_broker_revived] seconds since. *)
Definition gate_open (w : World E) : Prop :=
  broker_last_revived w = None \/
  exists t, broker_last_revived w = Some t /\
            (wait_after_broker_revived < time_time (env w) - t)%Q.

(** The bucket [_do_restart_node] consults for [node]: the registered one,
    or the full bucket the registry creates on the spot. *)
Definition bucket_of (node : Node) (w : World E) : TokenBucket :=
  default (TokenBucket_init restart_max_rate (time_time (env w)))
          (_buckets w !! restart_key node).

Definition token_available (node : Node) (w : World E) : bool :=
  fst (can_consume 1 (time_time (env w)) (bucket_of node w)).

(** Two worlds that differ at most in [paused]. *)
Definition same_but_paused (w1 w2 : World E) : Prop :=
  set_paused false w1 = set_paused false w2.

(** Two runs that end alike, leave worlds differing at most in [paused],
    and did the same to the outside, debug lines apart. *)
Definition same_behaviour {A} (o1 o2 : Outcome E A) : Prop :=
  res o1 = res o2 /\
  same_but_paused (post o1) (post o2) /\
  visible (out o1) = visible (out o2).

Definition oblivious {A} (m : M E A) : Prop :=
  forall w1 w2, same_but_paused w1 w2 -> same_behaviour (m w1) (m w2).

(** Running an action over the nodes one after the other, each from the
    world the previous one left, with an error line after each one that
    raised. *)
Definition sweep_step (action : Node -> M E unit)
           (acc : World E * list Obs) (node : Node) : World E * list Obs :=
  let o := action node (fst acc) in
  (post o,
   snd acc ++ out o ++
     match res o with
     | Ok _ => []
     | Raise exc => [Log ERROR "Event caused exception: %r" [ArgExn exc]]
     end).

Definition sweep (action : Node -> M E unit) (nodes : list Node) (w : World E)
  : World E * list Obs :=
  fold_left (sweep_step action) nodes (w, []).

(** The answers a node gives to probes with the given timeouts, each
    asked in the state the previous one left. *)
Fixpoint ping_answers (node : Node) (timeouts : list Q) (e : E)
  : list (Result bool) :=
  match timeouts with
  | [] => []
  | t :: rest =>
      let '(reply, e') := node_responds_to_ping node t e in
      outcome reply :: ping_answers node rest e'
  end.

(** How many answers were [False] before the first that was not. *)
Fixpoint unanswered (answers : list (Result bool)) : nat :=
  match answers with
  | Ok false :: rest => S (unanswered rest)
  | _ => 0
  end.

(** An observation other than the cancellation of the node's direct
    queue. *)
Definition spares_direct_queue (node : Node) (o : Obs) : Prop :=
  o <> Broadcast node (CancelQueue (direct_queue node)).

(** What the body of the queue loop sends for one queue of the symmetric
    difference. *)
Definition loop_command (node : Node) (queues_ : list string) (q : string)
  : option Cmd :=
  if bool_decide (q ∈ queues_) then Some (AddQueue q)
  else if String.eqb q (direct_queue node) then None
  else Some (CancelQueue q).

Definition loop_commands (node : Node) (queues_ : list string)
           (l : list string) : list Obs :=
  omap (fun q => Broadcast node <$> loop_command node queues_ q) l.

End Notions.

#[global] Instance Incident_eq_dec : EqDecision Incident.
Proof. solve_decision. Defined.

(** The completions signalled, in order. *)
Definition completions (l : list Obs) : list (nat * bool) :=
  omap (fun o => match o with EventSend ev b => Some (ev, b) | _ => None end) l.

(** An observation an action on [node] may leave: noise, a command to
    [node] other than the cancellation of its direct queue, or the
    disabling of [node]. *)
Definition concerns (node : Node) (o : Obs) : Prop :=
  match o with
  | Broadcast n c => n = node /\ c <> CancelQueue (direct_queue node)
  | Disable n => n = node
  | EventSend _ _ => False
  | _ => True
  end.

(** An observation that is neither a restart, nor a stop, nor the
    disabling of a node. *)
Definition gentle (o : Obs) : Prop :=
  match o with
  | Broadcast _ Restart | Broadcast _ Stop | Disable _ => False
  | _ => True
  end.

(** ** A scripted fleet, for running the model

    One node population that answers according to a script: fixed replies
    for [alive], [consuming_from] and [stats], a list of replies to the
    liveness probes (used up one per probe, [False] afterwards), the
    outcome of [restart], and the connection incidents that accompany
    [alive] and each probe. *)
Module Scripted.

Record Fleet := mkFleet {
  now : Q;
  alive_reply : bool;
  alive_incidents : list Incident;
  ping_replies : list bool;
  ping_incidents : list Incident;
  restart_outcome : Result unit;
  consuming_reply : option (list (string * PyVal));
  stats_reply : PyVal;
  disabled : list Node }.

Definition quiet {A} (a : A) : Reply A := mkReply [] (Ok a).

#[export] Instance fleet_external : External Fleet := {|
  time_time f := now f;
  node_alive _ f := (mkReply (alive_incidents f) (Ok (alive_reply f)), f);
  node_restart _ f := (restart_outcome f, f);
  node_stop _ f := (Ok tt, f);
  node_responds_to_ping _ _ f :=
    (mkReply (ping_incidents f) (Ok (hd false (ping_replies f))),
     mkFleet (now f) (alive_reply f) (alive_incidents f) (tl (ping_replies f))
             (ping_incidents f) (restart_outcome f) (consuming_reply f)
             (stats_reply f) (disabled f));
  node_consuming_from _ f := (quiet (consuming_reply f), f);
  node_add_queue _ _ f := (quiet tt, f);
  node_cancel_queue _ _ f := (quiet tt, f);
  node_stats _ f := (quiet (stats_reply f), f);
  node_autoscale _ _ _ f := (quiet tt, f);
  node_disable n f :=
    mkFleet (now f) (alive_reply f) (alive_incidents f) (ping_replies f)
            (ping_incidents f) (restart_outcome f) (consuming_reply f)
            (stats_reply f) (n :: disabled f)
|}.

(** A supervisor that has just started. *)
Definition world (f : Fleet) : World Fleet :=
  mkWorld f ∅ false None [] false 0 0.

Definition node1 : Node :=
  mkNode (Some 1) "n1" true ["q1"; "q2"] "d" 10 2.

Definition node2 : Node :=
  mkNode (Some 2) "n2" true ["q1"] "d2" 4 1.

Definition autoscaler (max min : Z) : PyVal :=
  PDict [("autoscaler", PDict [("max", PInt max); ("min", PInt min)])].

(** A healthy fleet at time 100: alive, consuming from [q1] only, with an
    autoscaler at (8, 2). *)
Definition fleet0 : Fleet :=
  mkFleet 100 true [] [] [] (Ok tt) (Some [("q1", PNone)]) (autoscaler 8 2) [].

(** Nodes that are down and never answer a probe. *)
Definition fleet_silent : Fleet :=
  mkFleet 100 false [] [] [] (Ok tt) None PNone [].

(** Nodes that answer the third probe. *)
Definition fleet_recovering : Fleet :=
  mkFleet 100 false [] [false; false; true] [] (Ok tt) None PNone [].

(** Nodes whose [restart] fails. *)
Definition fleet_failing : Fleet :=
  mkFleet 100 false [] [] [] (Raise (Exc_Exception "IOError")) None PNone [].

(** Nodes consuming from [q1], [q3] and the direct queue [d]. *)
Definition fleet_queues : Fleet :=
  mkFleet 100 true [] [] [] (Ok tt)
          (Some [("q1", PNone); ("q3", PNone); ("d", PNone)])
          (autoscaler 10 2) [].

(** A connection error during every probe. *)
Definition fleet_flapping : Fleet :=
  mkFleet 100 false [] [true] [ConnError (Exc_Exception "socket.error") 2]
          (Ok tt) None PNone [].

(** A registry holding, for [node1], a bucket filled at time 0, and one
    emptied at time 100. *)
Definition with_full_bucket (w : World Fleet) : World Fleet :=
  set_buckets {[restart_key node1 := TokenBucket_init restart_max_rate 0]} w.

Definition with_empty_bucket (w : World Fleet) : World Fleet :=
  set_buckets {[restart_key node1 := mkTokenBucket restart_max_rate 1 0 100]} w.

(** A paused supervisor with one verification request waiting. *)
Definition paused_world : World Fleet :=
  set_queue [mkRequest [node1; node2] 7 do_verify_node
                       {| kw_ratelimit := Some true |}]
            (set_paused true (world fleet_silent)).

End Scripted.


(** * The application shell: scs.apps.base

    [BaseApp] wraps a command: it answers [--version], configures Django,
    runs [syncdb], sets up the broker pool and hands over to [run].  The
    process it runs in is a state of its own: the attribute
    [getpass.getpass], the setting [SCS_INSTANCE_DIR], and the rest
    (Django, celery, the pools), which is reached through the calls of
    the interface [Host] only. *)

Module App.

Inductive AppExn :=
| KeyboardInterrupt
| SystemExit (code : option Z)
| OtherError (cls : string).

Inductive AppResult (A : Type) :=
| Returns (a : A)
| Raises (e : AppExn).
Arguments Returns {A} a.
Arguments Raises {A} e.

(** The functions the attribute [getpass.getpass] may hold. *)
Inductive Getpass :=
| unix_getpass
| win_getpass
| fallback_getpass.

Inductive AppObs :=
| Printed (s : string)
| SetupEnviron
| ImergeSettings
| CallCommand (name : string) (interactive : bool) (getpass_then : Getpass)
| InstallCryHandler
| SetLimit
| TakePool
| Ran (argv : list string).

(** Django, celery and the pools. *)
Class Host (X : Type) := {
  settings_configured : X -> bool;
  setup_environ : X -> AppResult unit * X;
  imerge_settings : X -> AppResult unit * X;
  call_command : string -> bool -> X -> AppResult unit * X;
  install_cry_handler : X -> AppResult unit * X;
  pools_set_limit : X -> AppResult unit * X;
  pools_connections : X -> AppResult unit * X }.

(** The constants [DEBUG] and [__version__] of the package. *)
Record Package := mkPackage {
  DEBUG : bool;
  __version__ : string }.

Section Shell.

Context {X : Type} `{Host X}.

Record Process := mkProcess {
  getpass_getpass : Getpass;
  SCS_INSTANCE_DIR : option string;
  host : X }.

Record Run (A : Type) := mkRun {
  result : AppResult A;
  after : Process;
  trace : list AppObs }.
Arguments mkRun {A} _ _ _.
Arguments result {A} _.
Arguments after {A} _.
Arguments trace {A} _.

Definition Sh (A : Type) : Type := Process -> Run A.

Definition sh_ret {A} (a : A) : Sh A := fun p => mkRun (Returns a) p [].

Definition sh_raise {A} (e : AppExn) : Sh A := fun p => mkRun (Raises e) p [].

Definition sh_bind {A B} (m : Sh A) (k : A -> Sh B) : Sh B :=
  fun p =>
    let r := m p in
    match result r with
    | Returns a => let r' := k a (after r) in
                   mkRun (result r') (after r') (trace r ++ trace r')
    | Raises e => mkRun (Raises e) (after r) (trace r)
    end.

Notation "x <- m ;; k" := (sh_bind m (fun x => k))
  (at level 100, m at next level, right associativity).
Notation "m ;; k" := (sh_bind m (fun _ => k))
  (at level 100, right associativity).

(** [try: body finally: final]. *)
Definition sh_finally {A} (body : Sh A) (final : Sh unit) : Sh A :=
  fun p =>
    let r := body p in
    let r' := final (after r) in
    match result r' with
    | Returns _ => mkRun (result r) (after r') (trace r ++ trace r')
    | Raises e => mkRun (Raises e) (after r') (trace r ++ trace r')
    end.

(** [try: body except KeyboardInterrupt: handler]. *)
Definition sh_except_interrupt {A} (body : Sh A) (handler : Sh A) : Sh A :=
  fun p =>
    let r := body p in
    match result r with
    | Raises KeyboardInterrupt =>
        let r' := handler (after r) in
        mkRun (result r') (after r') (trace r ++ trace r')
    | _ => r
    end.

Definition sh_print (s : string) : Sh unit :=
  fun p => mkRun (Returns tt) p [Printed s].

(** A call into the host, noted down as [o]. *)
Definition sh_call (o : AppObs) (call : X -> AppResult unit * X) : Sh unit :=
  fun p =>
    let '(r, x) := call (host p) in
    mkRun r (mkProcess (getpass_getpass p) (SCS_INSTANCE_DIR p) x) [o].

Definition sh_get {A} (f : Process -> A) : Sh A :=
  fun p => mkRun (Returns (f p)) p [].

Definition set_getpass (g : Getpass) : Sh unit :=
  fun p => mkRun (Returns tt) (mkProcess g (SCS_INSTANCE_DIR p) (host p)) [].

Definition set_instance_dir (d : string) : Sh unit :=
  fun p => mkRun (Returns tt) (mkProcess (getpass_getpass p) (Some d) (host p)) [].

(** The class attributes of [BaseApp] and the [run] method a command
    brings. *)
Record BaseApp := mkBaseApp {
  needs_syncdb : bool;
  interactive : bool;
  instance_dir : option string;
  run : list string -> X -> AppResult Z * X }.

Definition configure (app : BaseApp) : Sh unit :=
  configured <- sh_get (fun p => settings_configured (host p)) ;;
  (if negb configured then sh_call SetupEnviron setup_environ
   else sh_call ImergeSettings imerge_settings) ;;
  match instance_dir app with
  | Some d => if (d =? "")%string then sh_ret tt else set_instance_dir d
  | None => sh_ret tt
  end.

Definition syncdb (app : BaseApp) : Sh unit :=
  gp <- sh_get getpass_getpass ;;
  set_getpass fallback_getpass ;;
  sh_finally
    (g <- sh_get getpass_getpass ;;
     sh_call (CallCommand "syncdb" (interactive app) g)
             (call_command "syncdb" (interactive app)))
    (set_getpass gp).

Definition get_version (pkg : Package) : string :=
  ("scs v" ++ __version__ pkg)%string.

(** [self.run(argv)]. *)
Definition sh_run (app : BaseApp) (argv : list string) : Sh Z :=
  fun p =>
    let '(r, x) := run app argv (host p) in
    mkRun r (mkProcess (getpass_getpass p) (SCS_INSTANCE_DIR p) x) [Ran argv].

(** [argv] is the argument ([None] by default), [sys_argv] what
    [sys.argv] holds. *)
Definition run_from_argv (pkg : Package) (app : BaseApp)
           (argv : option (list string)) (sys_argv : list string) : Sh Z :=
  let argv := match argv with None => sys_argv | Some a => a end in
  (if bool_decide ("--version" ∈ argv) then
     sh_print (get_version pkg) ;;
     sh_raise (SystemExit (Some 0))
   else sh_ret tt) ;;
  sh_except_interrupt
    (configure app ;;
     (if needs_syncdb app then syncdb app else sh_ret tt) ;;
     (if DEBUG pkg then sh_call InstallCryHandler install_cry_handler
      else sh_ret tt) ;;
     sh_call SetLimit pools_set_limit ;;
     sh_call TakePool pools_connections ;;
     sh_run app argv)
    (if DEBUG pkg then sh_raise KeyboardInterrupt
     else sh_raise (SystemExit None)).

End Shell.

Arguments Process X : clear implicits.
Arguments Run X A : clear implicits.
Arguments Sh X A : clear implicits.
Arguments BaseApp X : clear implicits.
Arguments mkRun {X A} _ _ _.
Arguments result {X A} _.
Arguments after {X A} _.
Arguments trace {X A} _.

(** A host whose state is the script of what its calls will do. *)
Record Script := mkScript {
  configured_already : bool;
  syncdb_result : AppResult unit;
  run_result : AppResult Z }.

#[export] Instance script_host : Host Script := {|
  settings_configured x := configured_already x;
  setup_environ x := (Returns tt, x);
  imerge_settings x := (Returns tt, x);
  call_command _ _ x := (syncdb_result x, x);
  install_cry_handler x := (Returns tt, x);
  pools_set_limit x := (Returns tt, x);
  pools_connections x := (Returns tt, x)
|}.

Definition scripted_app : BaseApp Script :=
  mkBaseApp true true (Some "/srv/scs") (fun _ x => (run_result x, x)).

Definition scs : Package := mkPackage false "0.1".

(** [m] hands back [getpass.getpass] as it found it. *)
Definition restores_getpass {X A} (m : Sh X A) : Prop :=
  forall p, getpass_getpass (after (m p)) = getpass_getpass p.

(** [m] does not run the command. *)
Definition no_ran {X A} (m : Sh X A) : Prop :=
  forall p a, Ran a ∉ trace (m p).

(** [m] runs the command on [argv] as its last step, or not at all. *)
Definition run_last {X A} (argv : list string) (m : Sh X A) : Prop :=
  forall p, exists pre,
    (forall a, Ran a ∉ pre) /\
    (trace (m p) = pre \/ trace (m p) = pre ++ [Ran argv]).

(** The argument list [run_from_argv] works on. *)
Definition effective_argv (argv : option (list string))
           (sys_argv : list string) : list string :=
  match argv with None => sys_argv | Some a => a end.

End App.

Module Drills.

Import Scripted.

(** A node switched off in the model. *)
Definition node_off : Node :=
  mkNode (Some 3) "n3" false ["q1"] "d3" 4 1.

(** Nodes that are down, asked while the connection drops and comes
    back. *)
Definition fleet_revived : Fleet :=
  mkFleet 100 false [ConnError (Exc_Exception "socket.error") 2; Revived]
          [] [] (Ok tt) None PNone [].

(** Nodes whose statistics carry an autoscaler entry without bounds. *)
Definition fleet_malformed : Fleet :=
  mkFleet 100 true [] [] [] (Ok tt) (Some [("q1", PNone)])
          (PDict [("autoscaler", PDict [])]) [].

(** Nodes consuming from [q1], [q2] and the direct queue [d]. *)
Definition fleet_in_step : Fleet :=
  mkFleet 100 true [] [] [] (Ok tt)
          (Some [("q1", PNone); ("q2", PNone); ("d", PNone)])
          (autoscaler 10 2) [].

(** A running supervisor asked to stop [node1], with a restart of
    [node2] waiting behind. *)
Definition stop_requested : World Fleet :=
  set_queue [mkRequest [node1] 5 do_stop_node no_kwargs;
             mkRequest [node2] 6 do_restart_node no_kwargs]
            (world fleet0).

(** The fleet [f] half a minute later. *)
Definition half_a_minute_later (f : Fleet) : Fleet :=
  mkFleet (now f + 30) (alive_reply f) (alive_incidents f) (ping_replies f)
          (ping_incidents f) (restart_outcome f) (consuming_reply f)
          (stats_reply f) (disabled f).

(** The supervisor after a first rate-limited restart of [node1], half a
    minute later. *)
Definition after_first_restart : World Fleet :=
  let w := post (_do_restart_node Agent node1 true (world fleet_silent)) in
  set_env (half_a_minute_later (env w)) w.

End Drills.

Module ShellDrills.

Import App.

Definition fresh_process (x : Script) : Process Script :=
  mkProcess unix_getpass None x.

(** Everything succeeds and the command returns 0. *)
Definition smooth : Script := mkScript false (Returns tt) (Returns 0).

(** The command is interrupted from the keyboard. *)
Definition interrupted : Script :=
  mkScript false (Returns tt) (Raises KeyboardInterrupt).

(** The database synchronisation fails. *)
Definition broken_database : Script :=
  mkScript true (Raises (OtherError "DatabaseError")) (Returns 0).

End ShellDrills.

(** * Properties *)

Section Rules.

Context {E : Type} `{External E}.

Implicit Types (w : World E) (v : Variant) (node : Node).

(** ** Observation lists *)

Lemma broadcasts_app l1 l2 : broadcasts (l1 ++ l2) = broadcasts l1 ++ broadcasts l2.
Proof. apply omap_app. Qed.

Lemma probes_app l1 l2 : probes (l1 ++ l2) = probes l1 ++ probes l2.
Proof. apply omap_app. Qed.

Lemma occurrences_app {A} `{EqDecision A} (x : A) l1 l2 :
  occurrences x (l1 ++ l2) = (occurrences x l1 + occurrences x l2)%nat.
Proof. unfold occurrences. by rewrite filter_app, length_app. Qed.

Lemma visible_app l1 l2 : visible (l1 ++ l2) = visible l1 ++ visible l2.
Proof. apply filter_app. Qed.

Lemma noise_broadcasts l : Forall is_noise l -> broadcasts l = [].
Proof.
  induction 1 as [|o l Ho _ IH]; [done|].
  destruct o; simpl in *; try done; exact IH.
Qed.

Lemma noise_probes l : Forall is_noise l -> probes l = [].
Proof.
  induction 1 as [|o l Ho _ IH]; [done|].
  destruct o; simpl in *; try done; exact IH.
Qed.

Lemma noise_occurrences (x : Obs) l :
  noise x = false -> Forall is_noise l -> occurrences x l = 0%nat.
Proof.
  intros Hx. induction 1 as [|o l Ho _ IH]; [done|].
  unfold occurrences in *. rewrite filter_cons.
  destruct (decide (o = x)) as [->|]; [|exact IH].
  unfold is_noise in Ho. congruence.
Qed.

Lemma effects_app l1 l2 : effects (l1 ++ l2) = effects l1 ++ effects l2.
Proof. apply filter_app. Qed.

Lemma noise_effects l : Forall is_noise l -> effects l = [].
Proof.
  induction 1 as [|o l Ho _ IH]; [done|].
  unfold effects in *. rewrite filter_cons.
  destruct (decide (noise o = false)); [|exact IH].
  unfold is_noise in Ho. congruence.
Qed.

(** ** What a piece of code emits, and what it keeps *)

Lemma emits_ret P {A} (a : A) : emits P (ret (E:=E) a).
Proof. intros w. constructor. Qed.

Lemma emits_raise P {A} e : emits P (raise (E:=E) (A:=A) e).
Proof. intros w. constructor. Qed.

Lemma emits_get P {A} (f : World E -> A) : emits P (get f).
Proof. intros w. constructor. Qed.

Lemma emits_modify P (g : World E -> World E) : emits P (modify g).
Proof. intros w. constructor. Qed.

Lemma emits_external P {A} (call : E -> A * E) : emits P (external call).
Proof. intros w. unfold external. destruct (call (env w)). constructor. Qed.

Lemma emits_lift_result P {A} (r : Result A) : emits P (lift_result (E:=E) r).
Proof. destruct r; [apply emits_ret | apply emits_raise]. Qed.

Lemma emits_emit (P : Obs -> Prop) o : P o -> emits P (emit (E:=E) o).
Proof. intros Ho w. simpl. by repeat constructor. Qed.

Lemma emits_bind P {A B} (m : M E A) (k : A -> M E B) :
  emits P m -> (forall a, emits P (k a)) -> emits P (bind m k).
Proof.
  intros Hm Hk w. unfold bind. specialize (Hm w).
  destruct (res (m w)) as [a|e]; simpl; [|done].
  apply Forall_app. split; [done | apply Hk].
Qed.

Lemma emits_try_except P {A} (body : M E A) catches handler :
  emits P body -> (forall e, emits P (handler e)) ->
  emits P (try_except body catches handler).
Proof.
  intros Hb Hh w. unfold try_except. specialize (Hb w).
  destruct (res (body w)) as [a|e]; [done|].
  destruct (catches e); [|done]. simpl.
  apply Forall_app. split; [done | apply Hh].
Qed.

Lemma emits_try_finally P {A} (body : M E A) final :
  emits P body -> emits P final -> emits P (try_finally body final).
Proof.
  intros Hb Hf w. unfold try_finally.
  specialize (Hb w). specialize (Hf (post (body w))).
  destruct (res (final (post (body w)))); simpl; apply Forall_app; by split.
Qed.

Lemma emits_for_each P {A} (l : list A) (body : A -> M E unit) :
  (forall x, emits P (body x)) -> emits P (for_each l body).
Proof.
  intros Hb. induction l as [|x l IH]; simpl.
  - apply emits_ret.
  - apply emits_bind; [apply Hb | intros _; exact IH].
Qed.

Lemma emits_weaken (P Q : Obs -> Prop) {A} (m : M E A) :
  (forall o, P o -> Q o) -> emits P m -> emits Q m.
Proof. intros HPQ Hm w. eapply Forall_impl; [apply Hm | exact HPQ]. Qed.

Lemma keeps_ret {X} (f : World E -> X) {A} (a : A) : keeps f (ret a).
Proof. by intros w. Qed.

Lemma keeps_raise {X} (f : World E -> X) {A} e : keeps f (raise (A:=A) e).
Proof. by intros w. Qed.

Lemma keeps_get {X} (f : World E -> X) {A} (g : World E -> A) : keeps f (get g).
Proof. by intros w. Qed.

Lemma keeps_emit {X} (f : World E -> X) o : keeps f (emit o).
Proof. by intros w. Qed.

Lemma keeps_lift_result {X} (f : World E -> X) {A} (r : Result A) :
  keeps f (lift_result r).
Proof. by destruct r. Qed.

Lemma keeps_modify {X} (f : World E -> X) g :
  (forall w, f (g w) = f w) -> keeps f (modify g).
Proof. intros Hg w. apply Hg. Qed.

Lemma keeps_external {X} (f : World E -> X) {A} (call : E -> A * E) :
  (forall e w, f (set_env e w) = f w) -> keeps f (external call).
Proof. intros Hf w. unfold external. destruct (call (env w)). apply Hf. Qed.

Lemma keeps_bind {X} (f : World E -> X) {A B} (m : M E A) (k : A -> M E B) :
  keeps f m -> (forall a, keeps f (k a)) -> keeps f (bind m k).
Proof.
  intros Hm Hk w. unfold bind. specialize (Hm w).
  destruct (res (m w)) as [a|e]; simpl; [|done].
  by rewrite Hk.
Qed.

Lemma keeps_try_except {X} (f : World E -> X) {A} (body : M E A) catches handler :
  keeps f body -> (forall e, keeps f (handler e)) ->
  keeps f (try_except body catches handler).
Proof.
  intros Hb Hh w. unfold try_except. specialize (Hb w).
  destruct (res (body w)) as [a|e]; [done|].
  destruct (catches e); [|done]. simpl. by rewrite Hh.
Qed.

Lemma keeps_try_finally {X} (f : World E -> X) {A} (body : M E A) final :
  keeps f body -> keeps f final -> keeps f (try_finally body final).
Proof.
  intros Hb Hf w. unfold try_finally.
  specialize (Hb w). specialize (Hf (post (body w))).
  destruct (res (final (post (body w)))); simpl; congruence.
Qed.

Lemma keeps_for_each {X} (f : World E -> X) {A} (l : list A) (body : A -> M E unit) :
  (forall x, keeps f (body x)) -> keeps f (for_each l body).
Proof.
  intros Hb. induction l as [|x l IH]; simpl.
  - apply keeps_ret.
  - apply keeps_bind; [apply Hb | intros _; exact IH].
Qed.

End Rules.

Create HintDb sup.
#[global] Hint Resolve emits_ret emits_raise emits_get emits_modify
  emits_external emits_lift_result emits_emit emits_bind emits_try_except
  emits_try_finally emits_for_each : sup.
#[global] Hint Resolve keeps_ret keeps_raise keeps_get keeps_emit
  keeps_lift_result keeps_modify keeps_external keeps_bind keeps_try_except
  keeps_try_finally keeps_for_each : sup.

(** Goes through a piece of code statement by statement, splitting on the
    conditions it tests. *)
Ltac walk :=
  repeat first
    [ progress intros
    | match goal with
      | |- emits _ (match ?x with _ => _ end) => destruct x
      | |- keeps _ (match ?x with _ => _ end) => destruct x
      end
    | solve [auto with sup]
    | done
    | apply emits_bind
    | apply keeps_bind
    | apply emits_try_except
    | apply keeps_try_except
    | apply emits_try_finally
    | apply keeps_try_finally
    | apply emits_for_each
    | apply keeps_for_each
    | apply emits_emit
    | apply keeps_modify
    | apply keeps_external ].

Section Wrapper.

Context {E : Type} `{External E}.

Implicit Types (w : World E) (v : Variant) (node : Node).

(** ** Connection incidents and the insured wrapper *)

Lemma on_incident_noise v c i : emits is_noise (on_incident v c i).
Proof.
  destruct i, v; unfold on_incident, errback, on_revive, on_broker_revive,
    pause, resume, log, respond_to_ping; walk; reflexivity.
Qed.

Lemma on_incident_keeps_env v c i : keeps env (on_incident v c i).
Proof.
  destruct i, v; unfold on_incident, errback, on_revive, on_broker_revive,
    pause, resume, log, respond_to_ping; walk.
Qed.

Lemma on_incident_keeps_buckets v c i : keeps _buckets (on_incident v c i).
Proof.
  destruct i, v; unfold on_incident, errback, on_revive, on_broker_revive,
    pause, resume, log, respond_to_ping; walk.
Qed.

Lemma incidents_res v c (l : list Incident) w :
  res (for_each l (on_incident v c) w) = Ok tt.
Proof.
  revert w. induction l as [|i l IH]; intros w; [done|].
  simpl. unfold bind.
  assert (Hi : res (on_incident v c i w) = Ok tt).
  { destruct i, v; unfold on_incident, errback, on_revive, on_broker_revive,
      pause, resume, log, respond_to_ping, bind, get, emit, modify; simpl;
      destruct (paused w); reflexivity. }
  rewrite Hi. simpl. apply IH.
Qed.

(** An insured call ends the way the node's reply says. *)
Lemma insured_res {A} v node c (call : E -> Reply A * E) w :
  res (insured v node c call w) = outcome (fst (call (env w))).
Proof.
  unfold insured, bind, emit, external. simpl.
  destruct (call (env w)) as [reply e]. simpl.
  rewrite incidents_res. simpl.
  destruct (outcome reply); reflexivity.
Qed.

(** It sends its command once, and nothing else but noise. *)
Lemma insured_out {A} v node c (call : E -> Reply A * E) w :
  exists noise, out (insured v node c call w) = Broadcast node c :: noise /\
                Forall is_noise noise.
Proof.
  unfold insured, bind, emit, external. simpl.
  destruct (call (env w)) as [reply e]. simpl.
  rewrite incidents_res. simpl.
  pose proof (emits_for_each is_noise (incidents reply) (on_incident v c)
                (on_incident_noise v c) (set_env e w)) as Hn.
  eexists. split; [reflexivity|].
  apply Forall_app. split; [exact Hn|].
  destruct (outcome reply); constructor.
Qed.

Lemma insured_broadcasts {A} v node c (call : E -> Reply A * E) w :
  broadcasts (out (insured v node c call w)) = [(node, c)].
Proof.
  destruct (insured_out v node c call w) as (noise & -> & Hn).
  simpl. by rewrite noise_broadcasts.
Qed.

Lemma insured_keeps_buckets {A} v node c (call : E -> Reply A * E) :
  keeps _buckets (insured v node c call).
Proof.
  unfold insured. walk. apply on_incident_keeps_buckets.
Qed.

Lemma insured_env {A} v node c (call : E -> Reply A * E) w :
  env (post (insured v node c call w)) = snd (call (env w)).
Proof.
  unfold insured, bind, emit, external. simpl.
  destruct (call (env w)) as [reply e]. simpl.
  rewrite incidents_res. simpl.
  pose proof (keeps_for_each env (incidents reply) (on_incident v c)
                (on_incident_keeps_env v c) (set_env e w)) as Hk.
  destruct (outcome reply); simpl; exact Hk.
Qed.

Lemma blocking_keeps_buckets node c (call : E -> Result unit * E) :
  keeps _buckets (blocking node c call).
Proof. unfold blocking. walk. Qed.

End Wrapper.

#[global] Hint Resolve on_incident_noise on_incident_keeps_env
  on_incident_keeps_buckets insured_keeps_buckets blocking_keeps_buckets : sup.

Section Restart.

Context {E : Type} `{External E}.

Implicit Types (w : World E) (v : Variant) (node : Node).

(** ** The broker gate *)

Lemma qlt_spec (a b : Q) : qlt a b = true <-> (a < b)%Q.
Proof.
  unfold qlt. rewrite negb_true_iff, <- not_true_iff_false, Qle_bool_iff.
  split; [apply Qnot_le_lt | apply Qlt_not_le].
Qed.

Lemma _can_restart_run w :
  exists b, _can_restart w = mkOutcome (Ok b) w [] /\ (b = true <-> gate_open w).
Proof.
  unfold _can_restart, get, gate_open, time_since_broker_revived.
  destruct (broker_last_revived w) as [t|] eqn:Ht.
  - eexists. split; [reflexivity|].
    rewrite qlt_spec. unfold qsub. rewrite Qred_correct.
    split.
    + intros Hlt. right. exists t. by split.
    + intros [Hn | (t' & Ht' & Hlt)]; [done|]. by injection Ht' as ->.
  - exists true. split; [reflexivity|]. split; [by left | done].
Qed.

(** ** Restarting leaves the registry alone *)

Lemma ping_loop_keeps_buckets v node schedule :
  keeps _buckets (ping_loop v node schedule).
Proof.
  induction schedule as [|i rest IH]; simpl; unfold log, respond_to_ping; walk.
Qed.

Lemma _verify_restart_node_keeps_buckets v node :
  keeps _buckets (_verify_restart_node v node).
Proof.
  unfold _verify_restart_node, log. walk. apply ping_loop_keeps_buckets.
Qed.

(** What the first statement of [_do_restart_node] leaves: the registry
    with the node's bucket in it. *)
Lemma buckets_getitem_run node w :
  exists w', buckets_getitem (restart_key node) w = mkOutcome (Ok tt) w' [] /\
             env w' = env w /\
             broker_last_revived w' = broker_last_revived w /\
             _buckets w' = <[restart_key node := bucket_of node w]> (_buckets w).
Proof.
  unfold buckets_getitem, bucket_of, bind, get, modify. simpl.
  destruct (_buckets w !! restart_key node) as [b|] eqn:Hb; simpl.
  - exists w. repeat split; try done. by rewrite insert_id.
  - eexists. repeat split; done.
Qed.

Lemma gate_open_frame w w' :
  env w' = env w -> broker_last_revived w' = broker_last_revived w ->
  gate_open w' <-> gate_open w.
Proof. unfold gate_open. by intros -> ->. Qed.

(** ** The four ways through [_do_restart_node] *)

(** Not rate-limited: the bucket goes, then the restart runs. *)
Lemma _do_restart_node_unlimited v node w :
  exists w1,
    env w1 = env w /\
    _buckets w1 = delete (restart_key node) (_buckets w) /\
    res (_do_restart_node v node false w) = res (_verify_restart_node v node w1) /\
    post (_do_restart_node v node false w) = post (_verify_restart_node v node w1) /\
    out (_do_restart_node v node false w) = out (_verify_restart_node v node w1).
Proof.
  destruct (buckets_getitem_run node w) as (w' & Hrun & He & _ & Hb).
  unfold _do_restart_node, bind. rewrite Hrun. simpl.
  exists (set_buckets (delete (restart_key node) (_buckets w')) w').
  repeat split; simpl; try done.
  rewrite Hb. apply delete_insert_eq.
Qed.

(** Rate-limited with the gate shut: nothing happens. *)
Lemma _do_restart_node_deferred v node w :
  ~ gate_open w ->
  res (_do_restart_node v node true w) = Ok tt /\
  out (_do_restart_node v node true w) = [] /\
  _buckets (post (_do_restart_node v node true w))
  = <[restart_key node := bucket_of node w]> (_buckets w).
Proof.
  intros Hgate.
  destruct (buckets_getitem_run node w) as (w' & Hrun & He & Hr & Hb).
  destruct (_can_restart_run w') as (can & Hcan & Hiff).
  rewrite (gate_open_frame w w' He Hr) in Hiff.
  unfold _do_restart_node, bind. rewrite Hrun. cbn [res post out].
  rewrite Hcan. cbn [res post out app].
  destruct can; [by destruct Hgate; apply Hiff|]. simpl. done.
Qed.

(** Rate-limited, gate open, no token: the node is disabled and its
    bucket removed. *)
Lemma _do_restart_node_exhausted v node w :
  gate_open w -> token_available node w = false ->
  res (_do_restart_node v node true w) = Ok tt /\
  out (_do_restart_node v node true w)
  = [Log ERROR match v with
               | Agent => "%s node.disabled: Restarted too often"
               | Legacy => "%s node.disabled: Restarted too many times"
               end [ArgNode node];
     Disable node] /\
  _buckets (post (_do_restart_node v node true w))
  = delete (restart_key node) (_buckets w).
Proof.
  intros Hgate Htoken.
  destruct (buckets_getitem_run node w) as (w' & Hrun & He & Hr & Hb).
  destruct (_can_restart_run w') as (can & Hcan & Hiff).
  rewrite (gate_open_frame w w' He Hr) in Hiff.
  apply Hiff in Hgate. subst can.
  unfold token_available in Htoken.
  unfold _do_restart_node, bind. rewrite Hrun. cbn [res post out].
  rewrite Hcan. cbn [res post out app].
  unfold bucket_can_consume, bind, get. simpl.
  rewrite Hb, lookup_insert_eq. simpl. rewrite He.
  destruct (can_consume 1 (time_time (env w)) (bucket_of node w)) as [yes b'].
  simpl in Htoken. subst yes. simpl.
  unfold buckets_pop, bind, get. simpl.
  rewrite !lookup_insert_eq. simpl.
  repeat split.
  rewrite Hb. by rewrite !delete_insert_eq.
Qed.

(** Rate-limited, gate open, token granted: the restart runs, with the
    token taken out of the node's bucket. *)
Lemma _do_restart_node_granted v node w :
  gate_open w -> token_available node w = true ->
  exists w1,
    env w1 = env w /\
    _buckets w1
    = <[restart_key node :=
          snd (can_consume 1 (time_time (env w)) (bucket_of node w))]> (_buckets w) /\
    res (_do_restart_node v node true w) = res (_verify_restart_node v node w1) /\
    post (_do_restart_node v node true w) = post (_verify_restart_node v node w1) /\
    out (_do_restart_node v node true w) = out (_verify_restart_node v node w1).
Proof.
  intros Hgate Htoken.
  destruct (buckets_getitem_run node w) as (w' & Hrun & He & Hr & Hb).
  destruct (_can_restart_run w') as (can & Hcan & Hiff).
  rewrite (gate_open_frame w w' He Hr) in Hiff.
  apply Hiff in Hgate. subst can.
  unfold token_available in Htoken.
  unfold _do_restart_node, bind. rewrite Hrun. cbn [res post out].
  rewrite Hcan. cbn [res post out app].
  unfold bucket_can_consume, bind, get. simpl.
  rewrite Hb, lookup_insert_eq. simpl. rewrite He.
  destruct (can_consume 1 (time_time (env w)) (bucket_of node w)) as [yes b'].
  simpl in Htoken. subst yes. simpl.
  eexists. split; [|split; [|repeat split]]; simpl.
  - exact He.
  - rewrite Hb. by rewrite insert_insert_eq.
Qed.

Lemma gate_open_dec w : gate_open w \/ ~ gate_open w.
Proof.
  destruct (_can_restart_run w) as ([] & _ & Hiff).
  - left. by apply Hiff.
  - right. intros Hg. by apply Hiff in Hg.
Qed.

(** ** Properties of [_do_restart_node] *)

(** C1. A call to [_do_restart_node] sends a restart only if it is not
    rate-limited, or the broker gate is open and the node's bucket yields
    a token; [_can_restart] is the gate of the specification (no revival
    recorded, or more than 35 seconds since the last one); and a
    rate-limited call made within the cool-down sends no restart. *)
Theorem restart_only_when_permitted v node ratelimit w :
  (forall n,
      Broadcast n Restart ∈ out (_do_restart_node v node ratelimit w) ->
      ratelimit = false \/ (gate_open w /\ token_available node w = true)) /\
  (res (_can_restart w) = Ok true <-> gate_open w) /\
  (forall t n,
      ratelimit = true ->
      broker_last_revived w = Some t ->
      (time_time (env w) - t <= wait_after_broker_revived)%Q ->
      occurrences (Broadcast n Restart)
                  (out (_do_restart_node v node ratelimit w)) = 0%nat).
Proof.
  split; [|split].
  - intros n Hin. destruct ratelimit; [right | by left].
    destruct (gate_open_dec w) as [Hgate | Hgate].
    + split; [exact Hgate|].
      destruct (token_available node w) eqn:Htoken; [done|].
      destruct (_do_restart_node_exhausted v node w Hgate Htoken) as (_ & Hout & _).
      rewrite Hout in Hin.
      apply elem_of_cons in Hin as [Hin | Hin]; [discriminate|].
      apply elem_of_cons in Hin as [Hin | Hin]; [discriminate|].
      by apply elem_of_nil in Hin.
    + destruct (_do_restart_node_deferred v node w Hgate) as (_ & Hout & _).
      rewrite Hout in Hin. by apply elem_of_nil in Hin.
  - destruct (_can_restart_run w) as (b & -> & Hiff). simpl.
    rewrite <- Hiff. split; [by intros [= ->] | by intros ->].
  - intros t n -> Ht Hle.
    assert (Hgate : ~ gate_open w).
    { intros [Hnone | (t' & Ht' & Hlt)]; [congruence|].
      rewrite Ht in Ht'. injection Ht' as <-.
      by apply Qlt_not_le in Hlt. }
    destruct (_do_restart_node_deferred v node w Hgate) as (_ & -> & _).
    reflexivity.
Qed.

(** C3. A rate-limited call with the gate open and the bucket denying a
    token logs the error, disables the node once, sends no command at all
    (so no restart), and leaves the registry without the node's bucket. *)
Theorem disable_on_exhaustion v node w :
  gate_open w ->
  token_available node w = false ->
  res (_do_restart_node v node true w) = Ok tt /\
  effects (out (_do_restart_node v node true w)) = [Disable node] /\
  occurrences (Disable node) (out (_do_restart_node v node true w)) = 1%nat /\
  broadcasts (out (_do_restart_node v node true w)) = [] /\
  _buckets (post (_do_restart_node v node true w)) !! restart_key node = None.
Proof.
  intros Hgate Htoken.
  destruct (_do_restart_node_exhausted v node w Hgate Htoken) as (Hres & Hout & Hb).
  rewrite Hres, Hout, Hb. repeat split.
  - unfold occurrences. rewrite filter_cons, decide_False by discriminate.
    rewrite filter_cons, decide_True by reflexivity. reflexivity.
  - apply lookup_delete_eq.
Qed.

(** C8, as amended. The node's bucket is in the registry after a call to
    [_do_restart_node] unless the call was not rate-limited (the bucket is
    dropped before the restart is sent, whatever becomes of the restart)
    or the call was rate-limited, the gate open and the bucket empty (the
    node is disabled); a rate-limited call that is deferred leaves the
    bucket it found or created, one that restarts leaves it a token
    short; the buckets of other nodes are never touched. *)
Theorem bucket_eviction_rule v node ratelimit w :
  (_buckets (post (_do_restart_node v node ratelimit w)) !! restart_key node = None
   <-> ratelimit = false \/
       (ratelimit = true /\ gate_open w /\ token_available node w = false)) /\
  (ratelimit = true -> ~ gate_open w ->
   _buckets (post (_do_restart_node v node ratelimit w)) !! restart_key node
   = Some (bucket_of node w)) /\
  (ratelimit = true -> gate_open w -> token_available node w = true ->
   _buckets (post (_do_restart_node v node ratelimit w)) !! restart_key node
   = Some (snd (can_consume 1 (time_time (env w)) (bucket_of node w)))) /\
  (forall key, key <> restart_key node ->
               _buckets (post (_do_restart_node v node ratelimit w)) !! key
               = _buckets w !! key).
Proof.
  destruct ratelimit.
  - destruct (gate_open_dec w) as [Hgate | Hgate].
    + destruct (token_available node w) eqn:Htoken.
      * destruct (_do_restart_node_granted v node w Hgate Htoken)
          as (w1 & _ & Hb & _ & Hpost & _).
        rewrite <- (_verify_restart_node_keeps_buckets v node w1), <- Hpost in Hb.
        rewrite Hb.
        split; [|split; [|split]].
        -- rewrite lookup_insert_eq. split; [done|].
           intros [? | (_ & _ & ?)]; done.
        -- done.
        -- intros _ _ _. apply lookup_insert_eq.
        -- intros key Hkey. by rewrite lookup_insert_ne.
      * destruct (_do_restart_node_exhausted v node w Hgate Htoken) as (_ & _ & Hb).
        rewrite Hb. split; [|split; [|split]].
        -- rewrite lookup_delete_eq. split; [|done]. intros _. by right.
        -- done.
        -- done.
        -- intros key Hkey. by rewrite lookup_delete_ne.
    + destruct (_do_restart_node_deferred v node w Hgate) as (_ & _ & Hb).
      rewrite Hb. split; [|split; [|split]].
      * rewrite lookup_insert_eq. split; [done|].
        intros [? | (_ & ? & _)]; done.
      * intros _ _. apply lookup_insert_eq.
      * done.
      * intros key Hkey. by rewrite lookup_insert_ne.
  - destruct (_do_restart_node_unlimited v node w) as (w1 & _ & Hb & _ & Hpost & _).
    rewrite <- (_verify_restart_node_keeps_buckets v node w1), <- Hpost in Hb.
    rewrite Hb.
    split; [|split; [|split]].
    + rewrite lookup_delete_eq. split; [|done]. intros _. by left.
    + done.
    + done.
    + intros key Hkey. by rewrite lookup_delete_ne.
Qed.

End Restart.

Section Probing.

Context {E : Type} `{External E}.

Implicit Types (w : World E) (v : Variant) (node : Node).

(** ** Sequencing *)

Lemma bind_ok {A B} (m : M E A) (k : A -> M E B) w a :
  res (m w) = Ok a ->
  res (bind m k w) = res (k a (post (m w))) /\
  post (bind m k w) = post (k a (post (m w))) /\
  out (bind m k w) = out (m w) ++ out (k a (post (m w))).
Proof. intros Hm. unfold bind. rewrite Hm. done. Qed.

Lemma bind_ok_res {A B} (m : M E A) (k : A -> M E B) w a :
  res (m w) = Ok a -> res (bind m k w) = res (k a (post (m w))).
Proof. intros Hm. by apply bind_ok. Qed.

Lemma bind_ok_post {A B} (m : M E A) (k : A -> M E B) w a :
  res (m w) = Ok a -> post (bind m k w) = post (k a (post (m w))).
Proof. intros Hm. by apply bind_ok. Qed.

Lemma bind_ok_out {A B} (m : M E A) (k : A -> M E B) w a :
  res (m w) = Ok a -> out (bind m k w) = out (m w) ++ out (k a (post (m w))).
Proof. intros Hm. by apply bind_ok. Qed.

Lemma bind_raise {A B} (m : M E A) (k : A -> M E B) w e :
  res (m w) = Raise e ->
  res (bind m k w) = Raise e /\
  post (bind m k w) = post (m w) /\
  out (bind m k w) = out (m w).
Proof. intros Hm. unfold bind. rewrite Hm. done. Qed.

Lemma bind_emit_res {B} o (k : unit -> M E B) w :
  res (bind (emit o) k w) = res (k tt w).
Proof. reflexivity. Qed.

Lemma bind_emit_post {B} o (k : unit -> M E B) w :
  post (bind (emit o) k w) = post (k tt w).
Proof. reflexivity. Qed.

Lemma bind_emit_out {B} o (k : unit -> M E B) w :
  out (bind (emit o) k w) = o :: out (k tt w).
Proof. reflexivity. Qed.

Lemma bind_ret_res {A B} (a : A) (k : A -> M E B) w :
  res (bind (ret a) k w) = res (k a w).
Proof. reflexivity. Qed.

Lemma bind_ret_post {A B} (a : A) (k : A -> M E B) w :
  post (bind (ret a) k w) = post (k a w).
Proof. reflexivity. Qed.

Lemma bind_ret_out {A B} (a : A) (k : A -> M E B) w :
  out (bind (ret a) k w) = out (k a w).
Proof. reflexivity. Qed.

Lemma bind_get_res {A B} (f : World E -> A) (k : A -> M E B) w :
  res (bind (get f) k w) = res (k (f w) w).
Proof. reflexivity. Qed.

Lemma bind_get_post {A B} (f : World E -> A) (k : A -> M E B) w :
  post (bind (get f) k w) = post (k (f w) w).
Proof. reflexivity. Qed.

Lemma bind_get_out {A B} (f : World E -> A) (k : A -> M E B) w :
  out (bind (get f) k w) = out (k (f w) w).
Proof. reflexivity. Qed.

Lemma bind_modify_res {B} (g : World E -> World E) (k : unit -> M E B) w :
  res (bind (modify g) k w) = res (k tt (g w)).
Proof. reflexivity. Qed.

Lemma bind_modify_post {B} (g : World E -> World E) (k : unit -> M E B) w :
  post (bind (modify g) k w) = post (k tt (g w)).
Proof. reflexivity. Qed.

Lemma bind_modify_out {B} (g : World E -> World E) (k : unit -> M E B) w :
  out (bind (modify g) k w) = out (k tt (g w)).
Proof. reflexivity. Qed.

Lemma effects_cons_noise o l : noise o = true -> effects (o :: l) = effects l.
Proof.
  intros Ho. unfold effects. rewrite filter_cons.
  destruct (decide (noise o = false)); [congruence | done].
Qed.

Lemma effects_cons_effect o l : noise o = false -> effects (o :: l) = o :: effects l.
Proof.
  intros Ho. unfold effects. rewrite filter_cons.
  destruct (decide (noise o = false)); [done | congruence].
Qed.

Lemma insured_effects {A} v node c (call : E -> Reply A * E) w :
  effects (out (insured v node c call w)) = [Broadcast node c].
Proof.
  destruct (insured_out v node c call w) as (noise & -> & Hn).
  change (Broadcast node c :: noise) with ([Broadcast node c] ++ noise).
  rewrite effects_app, (noise_effects noise Hn). reflexivity.
Qed.

(** ** The probes after a restart *)

Lemma ping_loop_run v node schedule w :
  res (ping_loop v node schedule w)
  = match ping_answers node schedule (env w)
            !! unanswered (ping_answers node schedule (env w)) with
    | Some (Ok true) => Ok true
    | Some (Raise e) => Raise e
    | _ => Ok false
    end /\
  effects (out (ping_loop v node schedule w))
  = map (fun t => Broadcast node (RespondsToPing t))
        (take (S (unanswered (ping_answers node schedule (env w)))) schedule).
Proof.
  revert w. induction schedule as [|t rest IH]; intros w; [done|].
  pose proof (insured_res v node (RespondsToPing t) (node_responds_to_ping node t) w) as Hres.
  pose proof (insured_env v node (RespondsToPing t) (node_responds_to_ping node t) w) as Henv.
  pose proof (insured_effects v node (RespondsToPing t) (node_responds_to_ping node t) w) as Heff.
  cbn [ping_answers ping_loop].
  destruct (node_responds_to_ping node t (env w)) as [reply e'] eqn:Hcall.
  cbn [fst snd] in Hres, Henv.
  unfold log, respond_to_ping.
  rewrite bind_emit_res, bind_emit_out, effects_cons_noise by reflexivity.
  assert (Hpre :
    forall k : unit -> M E bool,
      res (bind match v with Agent => emit RespondToPing | Legacy => ret tt end k w)
      = res (k tt w) /\
      effects (out (bind match v with Agent => emit RespondToPing
                                    | Legacy => ret tt end k w))
      = effects (out (k tt w))).
  { intros k. destruct v.
    - by rewrite bind_emit_res, bind_emit_out, effects_cons_noise.
    - by rewrite bind_ret_res, bind_ret_out. }
  destruct (Hpre (fun _ => bind (insured v node (RespondsToPing t)
                                   (node_responds_to_ping node t))
                              (fun r : bool => if r then ret true
                                               else ping_loop v node rest)))
    as [-> ->].
  destruct (outcome reply) as [[|]|e] eqn:Hreply; cbn [unanswered].
  - destruct (bind_ok _ (fun r : bool => if r then ret true else ping_loop v node rest)
                _ _ Hres) as (-> & _ & ->).
    rewrite effects_app, Heff. done.
  - destruct (bind_ok _ (fun r : bool => if r then ret true else ping_loop v node rest)
                _ _ Hres) as (-> & _ & ->).
    rewrite effects_app, Heff.
    destruct (IH (post (insured v node (RespondsToPing t)
                          (node_responds_to_ping node t) w))) as [IHres IHeff].
    rewrite Henv in IHres, IHeff.
    rewrite IHres, IHeff. done.
  - destruct (bind_raise _ (fun r : bool => if r then ret true else ping_loop v node rest)
                _ _ Hres) as (-> & _ & ->).
    rewrite Heff. done.
Qed.

Lemma blocking_run node c (call : E -> Result unit * E) w :
  res (blocking node c call w) = fst (call (env w)) /\
  env (post (blocking node c call w)) = snd (call (env w)) /\
  out (blocking node c call w) = [Broadcast node c].
Proof.
  unfold blocking, bind, emit, external. simpl.
  destruct (call (env w)) as [[[]|e] e']; done.
Qed.

Lemma ping_answers_length node timeouts (e : E) :
  length (ping_answers node timeouts e) = length timeouts.
Proof.
  revert e. induction timeouts as [|t rest IH]; intros e; [done|].
  simpl. destruct (node_responds_to_ping node t e). simpl. by rewrite IH.
Qed.

(** The first answer that is not [False] is a [True] or an exception, and
    when there is none the count is the length. *)
Lemma unanswered_spec (answers : list (Result bool)) :
  match answers !! unanswered answers with
  | Some (Ok false) => False
  | Some _ => True
  | None => unanswered answers = length answers
  end.
Proof.
  induction answers as [|[[|]|e] rest IH]; simpl; try done.
  destruct (rest !! unanswered rest) as [[[|]|]|]; try done. by f_equal.
Qed.

(** ** The schedule of the agent variant *)

(** More fuel does not change what the generator yields. *)
Lemma fxrangemax_loop_fuel fuel fuel' stop step max sum_ cur l :
  fxrangemax_loop fuel stop step max sum_ cur = Some l ->
  (fuel <= fuel')%nat ->
  fxrangemax_loop fuel' stop step max sum_ cur = Some l.
Proof.
  revert fuel' sum_ cur l.
  induction fuel as [|fuel IH]; intros fuel' sum_ cur l Hrun Hle; [done|].
  destruct fuel' as [|fuel']; [lia|].
  simpl in *. destruct (qle max sum_); [done|].
  match goal with
  | Hrun : match fxrangemax_loop fuel ?a ?b ?c ?d ?e with _ => _ end = _ |- _ =>
      destruct (fxrangemax_loop fuel a b c d e) as [l'|] eqn:Hrec; [|done];
      rewrite (IH fuel' d e l' Hrec) by lia
  end.
  exact Hrun.
Qed.

Lemma fxrangemax_agent fuel :
  (32 <= fuel)%nat ->
  fxrangemax fuel (1 # 10) (Some 1%Q) (4 # 10) 30
  = Some ((1 # 10) :: (1 # 2) :: (9 # 10) :: replicate 28 1)%Q.
Proof.
  intros Hfuel. unfold fxrangemax.
  apply (fxrangemax_loop_fuel 32); [|exact Hfuel].
  vm_compute. reflexivity.
Qed.

(** ** Properties of [_verify_restart_node] *)

Lemma _verify_restart_node_run v node w :
  fst (node_restart node (env w)) = Ok tt ->
  match res (ping_loop v node (ping_schedule v)
                       (post (blocking node Restart (node_restart node) w))) with
  | Ok alive =>
      res (_verify_restart_node v node w) = Ok tt /\
      out (_verify_restart_node v node w)
      = Log WARN "%s node.restart" [ArgNode node]
          :: Broadcast node Restart
          :: out (ping_loop v node (ping_schedule v)
                            (post (blocking node Restart (node_restart node) w)))
          ++ [Log WARN (if alive : bool then "%s successfully restarted"
                        else "%s node doesn't respond after restart")
                  [ArgNode node]]
  | Raise e =>
      res (_verify_restart_node v node w) = Raise e /\
      out (_verify_restart_node v node w)
      = Log WARN "%s node.restart" [ArgNode node]
          :: Broadcast node Restart
          :: out (ping_loop v node (ping_schedule v)
                            (post (blocking node Restart (node_restart node) w)))
  end.
Proof.
  intros Hrestart.
  destruct (blocking_run node Restart (node_restart node) w) as (Hbres & _ & Hbout).
  rewrite Hrestart in Hbres.
  unfold _verify_restart_node, log.
  rewrite bind_emit_res, bind_emit_out.
  rewrite (bind_ok_res _ _ w tt Hbres), (bind_ok_out _ _ w tt Hbres), Hbout.
  set (w1 := post (blocking node Restart (node_restart node) w)).
  unfold bind.
  destruct (res (ping_loop v node (ping_schedule v) w1)) as [[|]|e]; done.
Qed.

(** C9, as amended. Once [node.restart] has returned,
    [_verify_restart_node] probes the node with the timeouts of the
    schedule, in order: 0.1, 0.5, 0.9 and then 28 times 1 second in the
    agent variant (31 probes, the generator stopping when the timeouts
    after the first add up to 30 seconds), and 0.1, 0.5, 1, 1, 1, 1 in
    the earlier variant.  It stops at the first probe whose answer is not
    [False]; if that answer is [True] it logs the success; if every probe
    was answered [False] the whole schedule has been used and it logs
    that the node does not respond; the restart and the probes are all it
    does besides logging. *)
Theorem restart_then_probe v node w :
  fst (node_restart node (env w)) = Ok tt ->
  let answers :=
    ping_answers node (ping_schedule v) (snd (node_restart node (env w))) in
  let o := _verify_restart_node v node w in
  ping_schedule Agent = ((1 # 10) :: (1 # 2) :: (9 # 10) :: replicate 28 1)%Q /\
  ping_schedule Legacy = [1 # 10; 1 # 2; 1; 1; 1; 1]%Q /\
  effects (out o)
  = Broadcast node Restart
      :: map (fun t => Broadcast node (RespondsToPing t))
             (take (S (unanswered answers)) (ping_schedule v)) /\
  match answers !! unanswered answers with
  | Some (Ok true) =>
      res o = Ok tt /\
      last (out o) = Some (Log WARN "%s successfully restarted" [ArgNode node])
  | Some (Raise e) => res o = Raise e
  | _ =>
      res o = Ok tt /\
      take (S (unanswered answers)) (ping_schedule v) = ping_schedule v /\
      last (out o)
      = Some (Log WARN "%s node doesn't respond after restart" [ArgNode node])
  end.
Proof.
  intros Hrestart answers o.
  split; [by vm_compute | split; [reflexivity|]].
  pose proof (_verify_restart_node_run v node w Hrestart) as Hrun.
  destruct (blocking_run node Restart (node_restart node) w) as (_ & Hbenv & _).
  destruct (ping_loop_run v node (ping_schedule v)
              (post (blocking node Restart (node_restart node) w))) as [Hpres Hpeff].
  rewrite Hbenv in Hpres, Hpeff. fold answers in Hpres, Hpeff.
  pose proof (unanswered_spec answers) as Hspec.
  pose proof (ping_answers_length node (ping_schedule v)
                (snd (node_restart node (env w)))) as Hlen.
  fold answers in Hlen.
  rewrite Hpres in Hrun. subst o.
  destruct (answers !! unanswered answers) as [[[|]|e]|] eqn:Hfirst.
  - destruct Hrun as [-> ->].
    rewrite effects_cons_noise, effects_cons_effect, effects_app, Hpeff by done.
    split; [by rewrite app_nil_r|]. split; [done|].
    by rewrite !app_comm_cons, last_snoc.
  - done.
  - destruct Hrun as [-> ->].
    by rewrite effects_cons_noise, effects_cons_effect, Hpeff.
  - destruct Hrun as [-> ->].
    rewrite effects_cons_noise, effects_cons_effect, effects_app, Hpeff by done.
    split; [by rewrite app_nil_r|]. split; [done|]. split.
    + apply take_ge. lia.
    + by rewrite !app_comm_cons, last_snoc.
Qed.

End Probing.

Section Queues.

Context {E : Type} `{External E}.

Implicit Types (w : World E) (v : Variant) (node : Node).

(** ** Sets as lists *)

Lemma elem_of_symmetric_difference (q : string) a b :
  q ∈ symmetric_difference a b <-> (q ∈ a /\ q ∉ b) \/ (q ∈ b /\ q ∉ a).
Proof.
  unfold symmetric_difference.
  by rewrite elem_of_app, !list_elem_of_difference.
Qed.

Lemma NoDup_symmetric_difference (a b : list string) :
  NoDup a -> NoDup b -> NoDup (symmetric_difference a b).
Proof.
  intros Ha Hb. unfold symmetric_difference. apply NoDup_app.
  split; [by apply NoDup_list_difference|].
  split; [|by apply NoDup_list_difference].
  intros q. rewrite !list_elem_of_difference. tauto.
Qed.

Lemma occurrences_effects (x : Obs) l :
  noise x = false -> occurrences x (effects l) = occurrences x l.
Proof.
  intros Hx. induction l as [|o l IH]; [done|].
  unfold occurrences, effects in *. rewrite !filter_cons.
  destruct (decide (noise o = false)) as [Ho|Ho].
  - rewrite filter_cons. destruct (decide (o = x)); simpl; by rewrite IH.
  - destruct (decide (o = x)) as [->|]; [congruence | exact IH].
Qed.

Lemma occurrences_cons_ne {A} `{EqDecision A} (x y : A) l :
  y <> x -> occurrences x (y :: l) = occurrences x l.
Proof. intros Hne. unfold occurrences. by rewrite filter_cons, decide_False. Qed.

Lemma occurrences_cons_eq {A} `{EqDecision A} (x : A) l :
  occurrences x (x :: l) = S (occurrences x l).
Proof. unfold occurrences. by rewrite filter_cons, decide_True. Qed.

Lemma occurrences_not_in {A} `{EqDecision A} (x : A) l :
  x ∉ l -> occurrences x l = 0%nat.
Proof.
  intros Hx. induction l as [|y l IH]; [done|].
  apply not_elem_of_cons in Hx as [Hne Hx].
  unfold occurrences in *. rewrite filter_cons.
  destruct (decide (y = x)); [congruence | by apply IH].
Qed.

(** ** The queue loop *)

Lemma reconcile_queue_effects v node queues_ q w :
  effects (out (reconcile_queue v node queues_ q w))
  = match loop_command node queues_ q with
    | Some c => [Broadcast node c]
    | None => []
    end.
Proof.
  unfold reconcile_queue, loop_command, ib, log.
  destruct (bool_decide (q ∈ queues_)).
  - rewrite bind_emit_out, effects_cons_noise by done. apply insured_effects.
  - destruct (String.eqb q (direct_queue node)); [done|].
    rewrite bind_emit_out, effects_cons_noise by done. apply insured_effects.
Qed.

Lemma reconcile_loop_effects v node queues_ l w :
  res (for_each l (reconcile_queue v node queues_) w) = Ok tt ->
  effects (out (for_each l (reconcile_queue v node queues_) w))
  = loop_commands node queues_ l.
Proof.
  revert w. induction l as [|q l IH]; intros w Hres; [done|].
  cbn [for_each] in *.
  destruct (res (reconcile_queue v node queues_ q w)) as [[]|e] eqn:Hq.
  - rewrite (bind_ok_res _ _ w tt Hq) in Hres.
    rewrite (bind_ok_out _ _ w tt Hq), effects_app, reconcile_queue_effects.
    rewrite (IH _ Hres). unfold loop_commands. simpl.
    by destruct (loop_command node queues_ q).
  - by rewrite (proj1 (bind_raise _ _ w e Hq)) in Hres.
Qed.

(** Over a list without duplicates a command that only one queue can
    give rise to is sent once if that queue is in the list and gives rise
    to it, and not at all otherwise. *)
Lemma loop_commands_count node queues_ l q c :
  NoDup l ->
  (forall q', loop_command node queues_ q' = Some c -> q' = q) ->
  occurrences (Broadcast node c) (loop_commands node queues_ l)
  = if bool_decide (q ∈ l /\ loop_command node queues_ q = Some c)
    then 1%nat else 0%nat.
Proof.
  intros Hl Hc. induction Hl as [|q' l Hq' Hl IH].
  - rewrite bool_decide_eq_false_2; [done|].
    intros [Hin _]. by apply elem_of_nil in Hin.
  - unfold loop_commands in *. cbn [omap list_omap].
    destruct (loop_command node queues_ q') as [c'|] eqn:Hq; cbn [fmap option_fmap option_map].
    + change (?x :: ?l) with ([x] ++ l) at 1. rewrite occurrences_app, IH.
      unfold occurrences. rewrite filter_cons.
      destruct (decide (Broadcast node c' = Broadcast node c)) as [[= ->]|Hne]; simpl.
      * apply Hc in Hq as Heq. subst q'.
        rewrite (bool_decide_eq_false_2 (q ∈ l /\ _)) by (by intros [? _]).
        rewrite (bool_decide_eq_true_2 (q ∈ q :: l /\ _)); [done|].
        split; [left|done].
      * rewrite (bool_decide_ext (q ∈ q' :: l /\ loop_command node queues_ q = Some c)
                                 (q ∈ l /\ loop_command node queues_ q = Some c));
          [done|].
        rewrite elem_of_cons. split; [|tauto].
        intros [[->|Hin] Hcmd]; [congruence|tauto].
    + rewrite IH.
      rewrite (bool_decide_ext (q ∈ q' :: l /\ loop_command node queues_ q = Some c)
                               (q ∈ l /\ loop_command node queues_ q = Some c));
        [done|].
      rewrite elem_of_cons. split; [|tauto].
      intros [[->|Hin] Hcmd]; [congruence|tauto].
Qed.

Lemma loop_command_add node queues_ q q' :
  loop_command node queues_ q' = Some (AddQueue q) <-> q' = q /\ q ∈ queues_.
Proof.
  unfold loop_command.
  destruct (bool_decide_reflect (q' ∈ queues_)) as [Hd|Hd].
  - split; [by intros [= ->] | by intros [-> _]].
  - destruct (String.eqb q' (direct_queue node)).
    + split; [done | by intros [-> ?]].
    + split; [done | by intros [-> ?]].
Qed.

Lemma loop_command_cancel node queues_ q q' :
  loop_command node queues_ q' = Some (CancelQueue q)
  <-> q' = q /\ (q ∉ queues_) /\ q <> direct_queue node.
Proof.
  unfold loop_command.
  destruct (bool_decide_reflect (q' ∈ queues_)) as [Hd|Hd].
  - split; [done | by intros (-> & ? & _)].
  - destruct (String.eqb_spec q' (direct_queue node)) as [Heq|Hne].
    + split; [done | by intros (-> & _ & ?)].
    + split; [by intros [= ->] | by intros (-> & _ & _)].
Qed.

(** ** Properties of [_verify_node_queues] *)

Lemma insured_emits (P : Obs -> Prop) {A} v node c (call : E -> Reply A * E) :
  P (Broadcast node c) -> (forall o, is_noise o -> P o) ->
  emits P (insured v node c call).
Proof.
  intros Hc Hn w. destruct (insured_out v node c call w) as (noise & -> & Hnoise).
  constructor; [exact Hc|]. eapply Forall_impl; [exact Hnoise | exact Hn].
Qed.

Lemma noise_spares_direct_queue node o : is_noise o -> spares_direct_queue node o.
Proof. intros Ho ->. discriminate Ho. Qed.

Lemma reconcile_queue_spares v node queues_ q :
  emits (spares_direct_queue node) (reconcile_queue v node queues_ q).
Proof.
  unfold reconcile_queue, ib, log.
  destruct (bool_decide (q ∈ queues_)).
  - apply emits_bind; [by apply emits_emit|]. intros _.
    apply insured_emits; [done | apply noise_spares_direct_queue].
  - destruct (String.eqb_spec q (direct_queue node)) as [Heq|Hne]; [apply emits_ret|].
    apply emits_bind; [by apply emits_emit|]. intros _.
    apply insured_emits; [|apply noise_spares_direct_queue].
    intros [= Heq]. by apply Hne.
Qed.

Lemma _verify_node_queues_spares v node :
  emits (spares_direct_queue node) (_verify_node_queues v node).
Proof.
  unfold _verify_node_queues, ib.
  apply emits_bind.
  - apply insured_emits; [done | apply noise_spares_direct_queue].
  - intros [items|]; [|apply emits_ret].
    apply emits_for_each. intros q. apply reconcile_queue_spares.
Qed.

(** C2. Whatever the node declares and whatever it reports to consume
    from, [_verify_node_queues] never sends the cancellation of the node's
    direct queue. *)
Theorem direct_queue_never_cancelled v node w :
  occurrences (Broadcast node (CancelQueue (direct_queue node)))
              (out (_verify_node_queues v node w)) = 0%nat.
Proof.
  apply occurrences_not_in. intros Hin.
  pose proof (_verify_node_queues_spares v node w) as Hall.
  rewrite Forall_forall in Hall. by apply (Hall _ Hin).
Qed.

(** C4. When [consuming_from] is answered and no command fails,
    [_verify_node_queues] sends, besides that query: [add_queue(q)] once
    for every declared queue that is not observed, the direct queue
    included; [cancel_queue(q)] once for every observed queue that is
    neither declared nor the direct queue; and nothing else.  With no
    reply ([None]) the query is all it sends. *)
Theorem queue_reconciliation v node w reply :
  outcome (fst (node_consuming_from node (env w))) = Ok reply ->
  res (_verify_node_queues v node w) = Ok tt ->
  match reply with
  | None =>
      effects (out (_verify_node_queues v node w)) = [Broadcast node ConsumingFrom]
  | Some items =>
      (forall q,
          occurrences (Broadcast node (AddQueue q))
                      (out (_verify_node_queues v node w))
          = if bool_decide (q ∈ queues node /\ (q ∉ map fst items))
            then 1%nat else 0%nat) /\
      (forall q,
          occurrences (Broadcast node (CancelQueue q))
                      (out (_verify_node_queues v node w))
          = if bool_decide (q ∈ map fst items /\ (q ∉ queues node) /\
                            q <> direct_queue node)
            then 1%nat else 0%nat) /\
      (forall o,
          o ∈ effects (out (_verify_node_queues v node w)) ->
          o = Broadcast node ConsumingFrom \/
          exists q, o = Broadcast node (AddQueue q) \/
                    o = Broadcast node (CancelQueue q))
  end.
Proof.
  intros Hreply Hres.
  pose proof (insured_res v node ConsumingFrom (node_consuming_from node) w) as Hq.
  rewrite Hreply in Hq.
  unfold _verify_node_queues, ib in *.
  rewrite (bind_ok_res _ _ w reply Hq) in Hres.
  rewrite (bind_ok_out _ _ w reply Hq).
  set (w1 := post (insured v node ConsumingFrom (node_consuming_from node) w)) in *.
  destruct reply as [items|].
  - set (declared := set_of (queues node)) in *.
    set (observed := set_of (map fst items)) in *.
    assert (Hnodup : NoDup (symmetric_difference observed declared)).
    { apply NoDup_symmetric_difference; apply NoDup_remove_dups. }
    pose proof (reconcile_loop_effects v node declared _ w1 Hres) as Hloop.
    assert (Hcount : forall c, noise (Broadcast node c) = false ->
              c <> ConsumingFrom ->
              occurrences (Broadcast node c)
                (out (insured v node ConsumingFrom (node_consuming_from node) w) ++
                 out (for_each (symmetric_difference observed declared)
                        (reconcile_queue v node declared) w1))
              = occurrences (Broadcast node c)
                  (loop_commands node declared
                     (symmetric_difference observed declared))).
    { intros c Hc Hne.
      rewrite <- occurrences_effects, effects_app, insured_effects, Hloop by done.
      apply occurrences_cons_ne. intros [= Heq]. by apply Hne. }
    split; [|split].
    + intros q. rewrite Hcount by done.
      rewrite (loop_commands_count node declared _ q) by
        (try done; intros q' Hq'; by apply loop_command_add in Hq' as [-> _]).
      rewrite (bool_decide_ext _ (q ∈ queues node /\ (q ∉ map fst items))); [done|].
      rewrite loop_command_add, elem_of_symmetric_difference.
      unfold declared, observed, set_of. rewrite !elem_of_remove_dups. tauto.
    + intros q. rewrite Hcount by done.
      rewrite (loop_commands_count node declared _ q) by
        (try done; intros q' Hq'; by apply loop_command_cancel in Hq' as [-> _]).
      rewrite (bool_decide_ext _ (q ∈ map fst items /\ (q ∉ queues node) /\
                                  q <> direct_queue node)); [done|].
      rewrite loop_command_cancel, elem_of_symmetric_difference.
      unfold declared, observed, set_of. rewrite !elem_of_remove_dups. tauto.
    + intros o. rewrite effects_app, insured_effects, Hloop. cbn [app].
      rewrite elem_of_cons. intros [-> | Hin]; [by left | right].
      unfold loop_commands in Hin. apply list_elem_of_omap in Hin as (q & _ & Hcmd).
      unfold loop_command in Hcmd.
      destruct (bool_decide (q ∈ declared)); simpl in Hcmd.
      * injection Hcmd as <-. exists q. by left.
      * destruct (String.eqb q (direct_queue node)); simpl in Hcmd; [done|].
        injection Hcmd as <-. exists q. by right.
  - cbn [ret out]. rewrite app_nil_r. apply insured_effects.
Qed.

End Queues.

Section Processes.

Context {E : Type} `{External E}.

Implicit Types (w : World E) (v : Variant) (node : Node).

(** ** Properties of [_verify_node_processes] *)

Lemma subscript_raises d k e :
  subscript d k = Raise e -> is_TypeError_or_KeyError e = true.
Proof.
  unfold subscript. destruct d; try by intros [= <-].
  destruct (assoc k items); [done | by intros [= <-]].
Qed.

Lemma current_autoscaler_run v node w stats :
  outcome (fst (node_stats node (env w))) = Ok stats ->
  res (current_autoscaler v node w)
  = Ok match subscript stats "autoscaler" with
       | Ok current => Some current
       | Raise _ => None
       end /\
  effects (out (current_autoscaler v node w)) = [Broadcast node Stats].
Proof.
  intros Hstats.
  pose proof (insured_res v node Stats (node_stats node) w) as Hq.
  pose proof (insured_effects v node Stats (node_stats node) w) as Heff.
  rewrite Hstats in Hq.
  unfold current_autoscaler, try_except.
  rewrite !(bind_ok_res _ _ w stats Hq), !(bind_ok_post _ _ w stats Hq),
    !(bind_ok_out _ _ w stats Hq).
  destruct (subscript stats "autoscaler") as [current|e] eqn:Hsub.
  - cbn. rewrite (bind_ok_res _ _ w stats Hq), (bind_ok_out _ _ w stats Hq), Hsub.
    cbn. by rewrite app_nil_r.
  - cbn. rewrite (subscript_raises _ _ _ Hsub). cbn. by rewrite !app_nil_r.
Qed.

(** C6. Given the reply to [stats]: if it has no ["autoscaler"] entry, or
    is not a map at all, [_verify_node_processes] returns having sent
    nothing but the query; if the entry is there with a ["max"] and a
    ["min"], it sends [autoscale(max, min)], the declared bounds in that
    order, exactly when the observed max differs from the declared one or
    the observed min does, and nothing otherwise. *)
Theorem autoscale_reconciliation v node w stats :
  outcome (fst (node_stats node (env w))) = Ok stats ->
  match subscript stats "autoscaler" with
  | Raise _ =>
      res (_verify_node_processes v node w) = Ok tt /\
      effects (out (_verify_node_processes v node w)) = [Broadcast node Stats]
  | Ok current =>
      forall cmax cmin,
        subscript current "max" = Ok cmax ->
        subscript current "min" = Ok cmin ->
        effects (out (_verify_node_processes v node w))
        = Broadcast node Stats
            :: (if int_ne (max_concurrency node) cmax
                   || int_ne (min_concurrency node) cmin
                then [Broadcast node
                        (Autoscale (max_concurrency node) (min_concurrency node))]
                else [])
  end.
Proof.
  intros Hstats.
  destruct (current_autoscaler_run v node w stats Hstats) as [Hres Heff].
  unfold _verify_node_processes, ib, log. cbn zeta.
  destruct (subscript stats "autoscaler") as [current|e] eqn:Hsub.
  - intros cmax cmin Hmax Hmin.
    rewrite (bind_ok_out _ _ w _ Hres), effects_app, Heff. cbn [app]. f_equal.
    rewrite Hmax. cbn [lift_result]. rewrite bind_ret_out.
    destruct (int_ne (max_concurrency node) cmax); cbn [orb].
    + rewrite bind_ret_out, bind_emit_out, effects_cons_noise by done.
      apply insured_effects.
    + rewrite Hmin. cbn [lift_result].
      unfold bind at 1. cbn [res post out ret app bind].
      destruct (int_ne (min_concurrency node) cmin); [|done].
      rewrite bind_emit_out, effects_cons_noise by done. apply insured_effects.
  - rewrite (bind_ok_res _ _ w _ Hres), (bind_ok_out _ _ w _ Hres), effects_app, Heff.
    done.
Qed.

End Processes.

Section Requests.

Context {E : Type} `{External E}.

Implicit Types (w : World E) (v : Variant) (node : Node).

(** ** Processing a request *)

(** One node of a request whose exceptions are all [Exception]s: the
    action runs, a failure is logged, and the loop goes on. *)
Lemma guarded_action_run (action : Node -> M E unit) node w :
  (forall exc, res (action node w) = Raise exc -> is_Exception exc = true) ->
  let o := try_except (action node) is_Exception
             (fun exc => log ERROR "Event caused exception: %r" [ArgExn exc]) w in
  res o = Ok tt /\
  post o = post (action node w) /\
  out o = out (action node w) ++
            match res (action node w) with
            | Ok _ => []
            | Raise exc => [Log ERROR "Event caused exception: %r" [ArgExn exc]]
            end.
Proof.
  intros Hexc. unfold try_except. cbn zeta.
  destruct (res (action node w)) as [[]|exc] eqn:Hres.
  - rewrite Hres. by rewrite app_nil_r.
  - rewrite (Hexc exc eq_refl). done.
Qed.

Lemma sweep_step_pair (action : Node -> M E unit) node w acc :
  sweep_step action (w, acc) node
  = (post (action node w),
     acc ++ out (action node w) ++
       match res (action node w) with
       | Ok _ => []
       | Raise exc => [Log ERROR "Event caused exception: %r" [ArgExn exc]]
       end).
Proof. reflexivity. Qed.

Lemma sweep_step_acc (action : Node -> M E unit) nodes w acc :
  fold_left (sweep_step action) nodes (w, acc)
  = (fst (sweep action nodes w), acc ++ snd (sweep action nodes w)).
Proof.
  unfold sweep. revert w acc.
  induction nodes as [|node nodes IH]; intros w acc; cbn [fold_left].
  - by rewrite app_nil_r.
  - rewrite !sweep_step_pair, IH, (IH _ ([] ++ _)). cbn [fst snd app].
    by rewrite <- !app_assoc.
Qed.

Lemma sweep_cons (action : Node -> M E unit) node nodes w :
  sweep action (node :: nodes) w
  = (fst (sweep action nodes (post (action node w))),
     (out (action node w) ++
        match res (action node w) with
        | Ok _ => []
        | Raise exc => [Log ERROR "Event caused exception: %r" [ArgExn exc]]
        end) ++ snd (sweep action nodes (post (action node w)))).
Proof.
  unfold sweep at 1. cbn [fold_left].
  by rewrite sweep_step_pair, sweep_step_acc.
Qed.

(** The world in which the [k]-th node of a request is handled. *)
Lemma sweep_take_cons (action : Node -> M E unit) node nodes w k :
  fst (sweep action (take (S k) (node :: nodes)) w)
  = fst (sweep action (take k nodes) (post (action node w))).
Proof. cbn [take]. by rewrite sweep_cons. Qed.

Lemma guarded_loop_run (action : Node -> M E unit) nodes w :
  (forall k node exc,
      nodes !! k = Some node ->
      res (action node (fst (sweep action (take k nodes) w))) = Raise exc ->
      is_Exception exc = true) ->
  let o := for_each nodes
             (fun node =>
                try_except (action node) is_Exception
                  (fun exc => log ERROR "Event caused exception: %r" [ArgExn exc])) w in
  res o = Ok tt /\
  post o = fst (sweep action nodes w) /\
  out o = snd (sweep action nodes w).
Proof.
  cbn zeta. revert w.
  induction nodes as [|node nodes IH]; intros w Hexc; [done|].
  destruct (guarded_action_run action node w
              (fun exc => Hexc 0%nat node exc eq_refl)) as (Hres & Hpost & Hout).
  cbn [for_each].
  rewrite (bind_ok_res _ _ w tt Hres), (bind_ok_post _ _ w tt Hres),
    (bind_ok_out _ _ w tt Hres), Hpost, Hout.
  destruct (IH (post (action node w))) as (-> & -> & ->).
  - intros k node' exc Hk. rewrite <- sweep_take_cons. by apply (Hexc (S k)).
  - by rewrite sweep_cons.
Qed.

(** C5. For a request whose action leaves the request's completion
    alone, [run] signals the completion with [True] exactly once, as the
    last thing it does, however the action ends on each node.  When the
    exceptions the action raises along the way are [Exception]s, every
    node is handled, in the order given and from the world the previous
    node left, each failure is logged, and no exception leaves the
    loop. *)
Theorem request_completes (action : Node -> M E unit) nodes event w :
  (forall node, emits (fun o => o <> EventSend event true) (action node)) ->
  let o := process_request action nodes event w in
  occurrences (EventSend event true) (out o) = 1%nat /\
  last (out o) = Some (EventSend event true) /\
  ((forall k node exc,
       nodes !! k = Some node ->
       res (action node (fst (sweep action (take k nodes) w))) = Raise exc ->
       is_Exception exc = true) ->
   res o = Ok tt /\
   post o = fst (sweep action nodes w) /\
   out o = snd (sweep action nodes w) ++ [EventSend event true]).
Proof.
  intros Hquiet. cbn zeta. unfold process_request, try_finally.
  set (loop := for_each nodes _).
  cbn [emit res post out].
  split; [|split].
  - rewrite occurrences_app, occurrences_cons_eq. cbn [occurrences filter length].
    assert (Hloop : emits (fun o => o <> EventSend event true) loop).
    { apply emits_for_each. intros node. apply emits_try_except; [apply Hquiet|].
      intros exc. by apply emits_emit. }
    rewrite occurrences_not_in; [done|].
    intros Hin. specialize (Hloop w). rewrite Forall_forall in Hloop.
    by apply (Hloop _ Hin).
  - apply last_snoc.
  - intros Hexc.
    destruct (guarded_loop_run action nodes w Hexc) as (Hres & Hpost & Hout).
    fold loop in Hres, Hpost, Hout. by rewrite Hres, Hpost, Hout.
Qed.

(** The three actions never touch a completion. *)
Lemma call_action_leaves_completion v a node kwargs event :
  emits (fun o => o <> EventSend event true) (call_action v a node kwargs).
Proof.
  assert (Hins : forall A n c (call : E -> Reply A * E),
             emits (fun o => o <> EventSend event true) (insured v n c call)).
  { intros. apply insured_emits; [done|]. intros o Ho ->. discriminate Ho. }
  assert (Hping : forall schedule,
             emits (fun o => o <> EventSend event true) (ping_loop v node schedule)).
  { induction schedule as [|t rest IH]; cbn [ping_loop];
      unfold log, respond_to_ping; walk. }
  unfold call_action, _do_verify_node, verify_node_body, _do_restart_node,
    _do_stop_node, _verify_restart_node, _verify_node_processes,
    current_autoscaler, _verify_node_queues, reconcile_queue, blocking, ib,
    buckets_getitem, _can_restart, bucket_can_consume, buckets_pop,
    buckets_pop_default, disable, log.
  walk.
Qed.

(** ** Verification while paused *)

Lemma _do_verify_node_paused node ratelimit w :
  paused w = true ->
  _do_verify_node Agent node ratelimit w = mkOutcome (Ok tt) w [].
Proof.
  intros Hp. unfold _do_verify_node, bind, get. cbn [res post out].
  rewrite Hp. reflexivity.
Qed.

Lemma paused_loop_run nodes kwargs w :
  paused w = true ->
  for_each nodes
    (fun node =>
       try_except (call_action Agent do_verify_node node kwargs) is_Exception
         (fun exc => log ERROR "Event caused exception: %r" [ArgExn exc])) w
  = mkOutcome (Ok tt) w [].
Proof.
  intros Hp. induction nodes as [|node nodes IH]; [done|].
  assert (Hhead :
    try_except (call_action Agent do_verify_node node kwargs) is_Exception
      (fun exc => log ERROR "Event caused exception: %r" [ArgExn exc]) w
    = mkOutcome (Ok tt) w []).
  { unfold try_except. cbn [call_action].
    by rewrite (_do_verify_node_paused node _ w Hp). }
  cbn [for_each]. unfold bind. rewrite Hhead. cbn [res post out].
  rewrite IH. reflexivity.
Qed.

Lemma _rinfo_run msg w :
  exists n,
    res (_rinfo msg w) = Ok tt /\
    post (_rinfo msg w) = set_rinfo_iterations n w /\
    Forall is_noise (out (_rinfo msg w)).
Proof.
  unfold _rinfo, bind, get, log, emit, modify. cbn [res post out].
  destruct (30 <=? _rinfo_iterations w)%nat; cbn [res post out app].
  - exists 0%nat. repeat split. by repeat constructor.
  - eexists. repeat split. constructor.
Qed.

(** What a pass of the loop does with the request at the head of the
    queue, in the agent variant. *)
Lemma run_iteration_request r rest w :
  queue w = r :: rest ->
  let w1 := post (_rinfo "wake-up" (set_queue rest w)) in
  let o := process_request
             (fun node => call_action Agent (req_action r) node (req_kwargs r))
             (req_nodes r) (req_event r) w1 in
  res (run_iteration Agent w) = res o /\
  post (run_iteration Agent w) = post o /\
  effects (out (run_iteration Agent w)) = effects (out o).
Proof.
  intros Hqueue. cbn zeta.
  destruct (_rinfo_run "wake-up" (set_queue rest w)) as (n & Hres & Hpost & Hnoise).
  unfold run_iteration.
  rewrite bind_get_res, bind_get_post, bind_get_out, Hqueue.
  rewrite bind_modify_res, bind_modify_post, bind_modify_out.
  assert (Hwake : res (bind respond_to_ping (fun _ => _rinfo "wake-up") (set_queue rest w))
                  = Ok tt) by exact Hres.
  rewrite (bind_ok_res _ _ _ tt Hwake), (bind_ok_post _ _ _ tt Hwake),
    (bind_ok_out _ _ _ tt Hwake).
  repeat split.
  rewrite effects_app. unfold respond_to_ping.
  rewrite bind_emit_out, effects_cons_noise by done.
  by rewrite (noise_effects _ Hnoise).
Qed.

(** C7. In the agent variant, while the supervisor is paused:
    [_do_verify_node] returns at once, leaving the world as it is and
    doing nothing to the outside; [verify] still puts its request on the
    queue; and a verification request taken off the queue is carried
    through, its completion being signalled with [True], without any
    command, restart, stop or change of the model. *)
Theorem paused_verify_is_noop node nodes ratelimit w :
  paused w = true ->
  _do_verify_node Agent node ratelimit w = mkOutcome (Ok tt) w [] /\
  (res (verify Agent nodes ratelimit w) = Ok (Some (next_event w)) /\
   queue (post (verify Agent nodes ratelimit w))
   = queue w ++ [mkRequest nodes (next_event w) do_verify_node
                            {| kw_ratelimit := Some ratelimit |}]) /\
  (forall event kwargs rest,
      queue w = mkRequest nodes event do_verify_node kwargs :: rest ->
      res (run_iteration Agent w) = Ok tt /\
      effects (out (run_iteration Agent w)) = [EventSend event true] /\
      queue (post (run_iteration Agent w)) = rest /\
      paused (post (run_iteration Agent w)) = true /\
      env (post (run_iteration Agent w)) = env w /\
      _buckets (post (run_iteration Agent w)) = _buckets w /\
      broker_last_revived (post (run_iteration Agent w)) = broker_last_revived w).
Proof.
  intros Hp. split; [by apply _do_verify_node_paused|]. split; [done|].
  intros event kwargs rest Hqueue.
  destruct (run_iteration_request _ rest w Hqueue) as (-> & -> & ->).
  destruct (_rinfo_run "wake-up" (set_queue rest w)) as (n & _ & -> & _).
  cbn [req_action req_nodes req_event req_kwargs].
  unfold process_request, try_finally.
  rewrite paused_loop_run by exact Hp.
  cbn [res post out emit app]. repeat split. exact Hp.
Qed.

End Requests.

Section Paused.

Context {E : Type} `{External E}.

Implicit Types (w : World E) (v : Variant) (node : Node).

(** ** Code that does not depend on [paused] *)

Lemma same_behaviour_intro {A} (o1 o2 : Outcome E A) :
  res o1 = res o2 -> same_but_paused (post o1) (post o2) ->
  visible (out o1) = visible (out o2) -> same_behaviour o1 o2.
Proof. by intros; repeat split. Qed.

Lemma oblivious_ret {A} (a : A) : oblivious (ret (E:=E) a).
Proof. by intros w1 w2 Hs; apply same_behaviour_intro. Qed.

Lemma oblivious_raise {A} e : oblivious (raise (E:=E) (A:=A) e).
Proof. by intros w1 w2 Hs; apply same_behaviour_intro. Qed.

Lemma oblivious_emit o : oblivious (emit (E:=E) o).
Proof. by intros w1 w2 Hs; apply same_behaviour_intro. Qed.

Lemma oblivious_lift_result {A} (r : Result A) : oblivious (lift_result (E:=E) r).
Proof. destruct r; [apply oblivious_ret | apply oblivious_raise]. Qed.

Lemma oblivious_get {A} (f : World E -> A) :
  (forall w1 w2, same_but_paused w1 w2 -> f w1 = f w2) -> oblivious (get f).
Proof.
  intros Hf w1 w2 Hs. apply same_behaviour_intro; [|done..].
  simpl. f_equal. by apply Hf.
Qed.

Lemma oblivious_modify (g : World E -> World E) :
  (forall w1 w2, same_but_paused w1 w2 -> same_but_paused (g w1) (g w2)) ->
  oblivious (modify g).
Proof. intros Hg w1 w2 Hs. apply same_behaviour_intro; [done| |done]. by apply Hg. Qed.

Lemma same_but_paused_env w1 w2 : same_but_paused w1 w2 -> env w1 = env w2.
Proof. intros Hs. exact (f_equal env Hs). Qed.

Lemma same_but_paused_set_env e w1 w2 :
  same_but_paused w1 w2 -> same_but_paused (set_env e w1) (set_env e w2).
Proof.
  destruct w1, w2. unfold same_but_paused, set_paused, set_env. cbn.
  intros [= -> -> -> -> -> -> ->]. reflexivity.
Qed.

Lemma oblivious_external {A} (call : E -> A * E) : oblivious (external call).
Proof.
  intros w1 w2 Hs. unfold external.
  rewrite (same_but_paused_env w1 w2 Hs).
  destruct (call (env w2)) as [a e].
  apply same_behaviour_intro; [done| |done].
  by apply same_but_paused_set_env.
Qed.

Lemma oblivious_bind {A B} (m : M E A) (k : A -> M E B) :
  oblivious m -> (forall a, oblivious (k a)) -> oblivious (bind m k).
Proof.
  intros Hm Hk w1 w2 Hs. destruct (Hm w1 w2 Hs) as (Hres & Hpost & Hout).
  unfold bind. rewrite Hres. destruct (res (m w2)) as [a|e].
  - destruct (Hk a _ _ Hpost) as (Hres' & Hpost' & Hout').
    apply same_behaviour_intro; cbn [res post out]; [done..|].
    by rewrite !visible_app, Hout, Hout'.
  - by apply same_behaviour_intro.
Qed.

Lemma oblivious_try_except {A} (body : M E A) catches handler :
  oblivious body -> (forall e, oblivious (handler e)) ->
  oblivious (try_except body catches handler).
Proof.
  intros Hb Hh w1 w2 Hs. destruct (Hb w1 w2 Hs) as (Hres & Hpost & Hout).
  unfold try_except. rewrite Hres. destruct (res (body w2)) as [a|e] eqn:Hres2.
  - apply same_behaviour_intro; [|done..]. by rewrite Hres, Hres2.
  - destruct (catches e).
    + destruct (Hh e _ _ Hpost) as (Hres' & Hpost' & Hout').
      apply same_behaviour_intro; cbn [res post out]; [done..|].
      by rewrite !visible_app, Hout, Hout'.
    + apply same_behaviour_intro; [|done..]. by rewrite Hres, Hres2.
Qed.

Lemma oblivious_try_finally {A} (body : M E A) final :
  oblivious body -> oblivious final -> oblivious (try_finally body final).
Proof.
  intros Hb Hf w1 w2 Hs. destruct (Hb w1 w2 Hs) as (Hres & Hpost & Hout).
  destruct (Hf _ _ Hpost) as (Hres' & Hpost' & Hout').
  unfold try_finally. rewrite Hres'.
  destruct (res (final (post (body w2)))) as [[]|e];
    apply same_behaviour_intro; cbn [res post out]; try done;
    by rewrite !visible_app, Hout, Hout'.
Qed.

Lemma oblivious_for_each {A} (l : list A) (body : A -> M E unit) :
  (forall x, oblivious (body x)) -> oblivious (for_each l body).
Proof.
  intros Hb. induction l as [|x l IH]; simpl.
  - apply oblivious_ret.
  - apply oblivious_bind; [apply Hb | intros _; exact IH].
Qed.

End Paused.

#[global] Hint Resolve oblivious_ret oblivious_raise oblivious_emit
  oblivious_lift_result oblivious_external : sup.

(** Settles a side condition on a reading or an update of the world: it
    is the same in two worlds that differ in [paused] only. *)
Ltac unpaused :=
  let Hs := fresh "Hs" in
  intros [] [] Hs;
  unfold same_but_paused, set_paused, set_env, set_buckets,
    set_broker_last_revived, set_queue, set_rinfo_iterations, set_next_event,
    time_since_broker_revived in *;
  cbn [env _buckets paused broker_last_revived queue should_stop
       _rinfo_iterations next_event] in *;
  injection Hs as ?; subst; reflexivity.

(** The counterpart of [walk] for [oblivious]. *)
Ltac stroll :=
  repeat first
    [ progress intros
    | match goal with
      | |- oblivious (match ?x with _ => _ end) => destruct x
      end
    | solve [auto with sup]
    | apply oblivious_bind
    | apply oblivious_try_except
    | apply oblivious_try_finally
    | apply oblivious_for_each
    | apply oblivious_get; unpaused
    | apply oblivious_modify; unpaused ].

Section Explicit.

Context {E : Type} `{External E}.

Implicit Types (w : World E) (v : Variant) (node : Node).

(** ** Restart and stop do not look at [paused] *)

(** [pause] and [resume] write the flag; what they read of it only decides
    whether a debug line is logged. *)
Lemma oblivious_pause v : oblivious (E:=E) (pause v).
Proof.
  intros [e1 b1 p1 r1 q1 s1 i1 n1] [e2 b2 p2 r2 q2 s2 i2 n2] Hs.
  unfold same_but_paused, set_paused in Hs. cbn in Hs.
  injection Hs as ?; subst.
  destruct v, p1, p2; by apply same_behaviour_intro.
Qed.

Lemma oblivious_resume v : oblivious (E:=E) (resume v).
Proof.
  intros [e1 b1 p1 r1 q1 s1 i1 n1] [e2 b2 p2 r2 q2 s2 i2 n2] Hs.
  unfold same_but_paused, set_paused in Hs. cbn in Hs.
  injection Hs as ?; subst.
  destruct v, p1, p2; by apply same_behaviour_intro.
Qed.

Lemma oblivious_on_incident v c i : oblivious (E:=E) (on_incident v c i).
Proof.
  pose proof (oblivious_pause v). pose proof (oblivious_resume v).
  destruct i, v; unfold on_incident, errback, on_revive, on_broker_revive, log;
    stroll.
Qed.

Lemma oblivious_insured {A} v node c (call : E -> Reply A * E) :
  oblivious (insured v node c call).
Proof.
  pose proof (oblivious_on_incident v c).
  unfold insured. stroll.
Qed.

Lemma oblivious_blocking node c (call : E -> Result unit * E) :
  oblivious (blocking node c call).
Proof. unfold blocking. stroll. Qed.

Lemma oblivious_ping_loop v node schedule :
  oblivious (E:=E) (ping_loop v node schedule).
Proof.
  pose proof (fun t => oblivious_insured v node (RespondsToPing t)
                         (node_responds_to_ping node t)).
  induction schedule as [|t rest IH]; cbn [ping_loop];
    unfold log, respond_to_ping; stroll.
Qed.

Lemma oblivious_verify_restart_node v node :
  oblivious (E:=E) (_verify_restart_node v node).
Proof.
  pose proof (oblivious_blocking node Restart (node_restart node)).
  pose proof (oblivious_ping_loop v node (ping_schedule v)).
  unfold _verify_restart_node, log. stroll.
Qed.

Lemma oblivious_do_restart_node v node ratelimit :
  oblivious (E:=E) (_do_restart_node v node ratelimit).
Proof.
  pose proof (oblivious_verify_restart_node v node).
  unfold _do_restart_node, buckets_getitem, _can_restart, bucket_can_consume,
    buckets_pop, buckets_pop_default, disable, log.
  stroll.
Qed.

Lemma oblivious_do_stop_node node : oblivious (E:=E) (_do_stop_node node).
Proof.
  pose proof (oblivious_blocking node Stop (node_stop node)).
  unfold _do_stop_node, log. stroll.
Qed.

Lemma oblivious_request nodes action kwargs :
  oblivious (E:=E) (_request nodes action kwargs).
Proof. unfold _request. stroll. Qed.


End Explicit.

(** * The properties at work on the scripted fleet *)

Module Scenarios.

Import Scripted.

(** C3 at work: the gate is open (no revival recorded), the bucket of
    [node1] was emptied in this very second. *)
Lemma disable_on_exhaustion_witness :
  gate_open (with_empty_bucket (world fleet_silent)) /\
  token_available node1 (with_empty_bucket (world fleet_silent)) = false /\
  res (_do_restart_node Agent node1 true (with_empty_bucket (world fleet_silent)))
  = Ok tt /\
  effects (out (_do_restart_node Agent node1 true
                  (with_empty_bucket (world fleet_silent))))
  = [Disable node1] /\
  occurrences (Disable node1)
    (out (_do_restart_node Agent node1 true (with_empty_bucket (world fleet_silent))))
  = 1%nat /\
  broadcasts (out (_do_restart_node Agent node1 true
                     (with_empty_bucket (world fleet_silent)))) = [] /\
  _buckets (post (_do_restart_node Agent node1 true
                    (with_empty_bucket (world fleet_silent))))
    !! restart_key node1 = None.
Proof.
  assert (Hgate : gate_open (with_empty_bucket (world fleet_silent))).
  { left. reflexivity. }
  assert (Htoken : token_available node1 (with_empty_bucket (world fleet_silent))
                   = false).
  { vm_compute. reflexivity. }
  exact (conj Hgate (conj Htoken
           (disable_on_exhaustion Agent node1 _ Hgate Htoken))).
Defined.

(** C4 at work: [node1] declares [q1] and [q2], its direct queue is [d],
    and it consumes from [q1], [q3] and [d]. *)
Lemma queue_reconciliation_witness :
  outcome (fst (node_consuming_from node1 (env (world fleet_queues))))
  = Ok (Some [("q1", PNone); ("q3", PNone); ("d", PNone)]) /\
  res (_verify_node_queues Agent node1 (world fleet_queues)) = Ok tt /\
  occurrences (Broadcast node1 (AddQueue "q2"))
    (out (_verify_node_queues Agent node1 (world fleet_queues))) = 1%nat /\
  occurrences (Broadcast node1 (AddQueue "q1"))
    (out (_verify_node_queues Agent node1 (world fleet_queues))) = 0%nat /\
  occurrences (Broadcast node1 (CancelQueue "q3"))
    (out (_verify_node_queues Agent node1 (world fleet_queues))) = 1%nat /\
  occurrences (Broadcast node1 (CancelQueue "d"))
    (out (_verify_node_queues Agent node1 (world fleet_queues))) = 0%nat.
Proof.
  assert (Hreply : outcome (fst (node_consuming_from node1 (env (world fleet_queues))))
                   = Ok (Some [("q1", PNone); ("q3", PNone); ("d", PNone)])).
  { reflexivity. }
  assert (Hres : res (_verify_node_queues Agent node1 (world fleet_queues)) = Ok tt).
  { vm_compute. reflexivity. }
  destruct (queue_reconciliation Agent node1 (world fleet_queues) _ Hreply Hres)
    as (Hadd & Hcancel & _).
  exact (conj Hreply (conj Hres
           (conj (Hadd "q2") (conj (Hadd "q1")
              (conj (Hcancel "q3") (Hcancel "d")))))).
Defined.

(** C5 at work: a restart request for two nodes whose [restart] raises. *)
Lemma request_completes_witness :
  (forall node,
      emits (fun o => o <> EventSend 3 true)
            (call_action (E:=Fleet) Agent do_restart_node node no_kwargs)) /\
  occurrences (EventSend 3 true)
    (out (process_request
            (fun node => call_action Agent do_restart_node node no_kwargs)
            [node1; node2] 3 (world fleet_failing))) = 1%nat /\
  res (process_request
         (fun node => call_action Agent do_restart_node node no_kwargs)
         [node1; node2] 3 (world fleet_failing)) = Ok tt /\
  out (process_request
         (fun node => call_action Agent do_restart_node node no_kwargs)
         [node1; node2] 3 (world fleet_failing))
  = [Log WARN "%s node.restart" [ArgNode node1];
     Broadcast node1 Restart;
     Log ERROR "Event caused exception: %r" [ArgExn (Exc_Exception "IOError")];
     Log WARN "%s node.restart" [ArgNode node2];
     Broadcast node2 Restart;
     Log ERROR "Event caused exception: %r" [ArgExn (Exc_Exception "IOError")];
     EventSend 3 true].
Proof.
  assert (Hquiet : forall node,
             emits (fun o => o <> EventSend 3 true)
                   (call_action (E:=Fleet) Agent do_restart_node node no_kwargs)).
  { intros node. apply call_action_leaves_completion. }
  destruct (request_completes
              (fun node => call_action Agent do_restart_node node no_kwargs)
              [node1; node2] 3 (world fleet_failing) Hquiet)
    as (Honce & _ & Hall).
  destruct Hall as (Hres & _ & Hout).
  { intros [|[|k]] node exc Hk Hraise; try discriminate Hk;
      injection Hk as <-; vm_compute in Hraise; injection Hraise as <-;
      reflexivity. }
  exact (conj Hquiet (conj Honce (conj Hres Hout))).
Defined.

(** C6 at work: [node1] declares (10, 2), its autoscaler runs at (8, 2). *)
Lemma autoscale_reconciliation_witness :
  outcome (fst (node_stats node1 (env (world fleet0)))) = Ok (autoscaler 8 2) /\
  effects (out (_verify_node_processes Agent node1 (world fleet0)))
  = [Broadcast node1 Stats; Broadcast node1 (Autoscale 10 2)].
Proof.
  exact (conj eq_refl
           (autoscale_reconciliation Agent node1 (world fleet0) (autoscaler 8 2)
              eq_refl (PInt 8) (PInt 2) eq_refl eq_refl)).
Defined.

(** C7 at work: a paused supervisor with a verification request for two
    dead nodes at the head of its queue. *)
Lemma paused_verify_is_noop_witness :
  paused paused_world = true /\
  _do_verify_node Agent node1 true paused_world
  = mkOutcome (Ok tt) paused_world [] /\
  res (run_iteration Agent paused_world) = Ok tt /\
  effects (out (run_iteration Agent paused_world)) = [EventSend 7 true] /\
  queue (post (run_iteration Agent paused_world)) = [].
Proof.
  destruct (paused_verify_is_noop node1 [node1; node2] true paused_world eq_refl)
    as (Hnoop & _ & Hrun).
  destruct (Hrun 7%nat {| kw_ratelimit := Some true |} [] eq_refl)
    as (Hres & Heff & Hqueue & _).
  exact (conj eq_refl (conj Hnoop (conj Hres (conj Heff Hqueue)))).
Defined.

(** C8 refuted as stated: a restart that is not rate-limited drops the
    bucket although the node is not disabled and the restart does not
    succeed, be it that the node never answers or that [restart] itself
    raises. *)
Lemma bucket_evicted_though_restart_failed :
  is_Some (_buckets (with_full_bucket (world fleet_silent)) !! restart_key node1) /\
  _buckets (post (_do_restart_node Agent node1 false
                    (with_full_bucket (world fleet_silent))))
    !! restart_key node1 = None /\
  occurrences (Disable node1)
    (out (_do_restart_node Agent node1 false
            (with_full_bucket (world fleet_silent)))) = 0%nat /\
  last (out (_do_restart_node Agent node1 false
               (with_full_bucket (world fleet_silent))))
  = Some (Log WARN "%s node doesn't respond after restart" [ArgNode node1]) /\
  res (_do_restart_node Agent node1 false (with_full_bucket (world fleet_failing)))
  = Raise (Exc_Exception "IOError") /\
  _buckets (post (_do_restart_node Agent node1 false
                    (with_full_bucket (world fleet_failing))))
    !! restart_key node1 = None.
Proof.
  split; [by eexists|].
  repeat split; vm_compute; reflexivity.
Qed.

(** C9 refuted as stated: a node that never answers is probed 31 times by
    the agent variant. *)
Lemma thirty_one_probes :
  length (probes (out (_verify_restart_node Agent node1 (world fleet_silent))))
  = 31%nat /\
  length (ping_schedule Agent) = 31%nat /\
  (forall fuel, (32 <= fuel)%nat ->
                fxrangemax fuel (1 # 10) (Some 1%Q) (4 # 10) 30
                = Some (ping_schedule Agent)).
Proof.
  split; [by vm_compute|]. split; [by vm_compute|].
  intros fuel Hfuel. by rewrite (fxrangemax_agent fuel Hfuel).
Qed.

(** C9, as amended, at work: the node answers the third probe. *)
Lemma restart_then_probe_witness :
  fst (node_restart node1 (env (world fleet_recovering))) = Ok tt /\
  effects (out (_verify_restart_node Agent node1 (world fleet_recovering)))
  = [Broadcast node1 Restart;
     Broadcast node1 (RespondsToPing (1 # 10));
     Broadcast node1 (RespondsToPing (1 # 2));
     Broadcast node1 (RespondsToPing (9 # 10))] /\
  res (_verify_restart_node Agent node1 (world fleet_recovering)) = Ok tt /\
  last (out (_verify_restart_node Agent node1 (world fleet_recovering)))
  = Some (Log WARN "%s successfully restarted" [ArgNode node1]).
Proof.
  assert (Hrestart : fst (node_restart node1 (env (world fleet_recovering)))
                     = Ok tt).
  { reflexivity. }
  destruct (restart_then_probe Agent node1 (world fleet_recovering) Hrestart)
    as (_ & _ & Heff & Hend).
  vm_compute in Heff. vm_compute in Hend.
  split; [exact Hrestart|].
  vm_compute. exact (conj Heff Hend).
Defined.

(** Two rate-limited restarts of a dead node in the same second: the
    first takes the token and restarts, the second disables the node. *)
Example runaway_node_is_disabled :
  broadcasts (out (_do_restart_node Agent node1 true (world fleet_silent)))
  = (node1, Restart) :: map (fun t => (node1, RespondsToPing t)) (ping_schedule Agent) /\
  effects (out (_do_restart_node Agent node1 true
                  (post (_do_restart_node Agent node1 true (world fleet_silent)))))
  = [Disable node1].
Proof. split; vm_compute; reflexivity. Qed.

(** The debug line of [pause] is what two runs that differ in [paused]
    may differ in: here a connection error interrupts the probe. *)
Example pausing_line_apart :
  filter (fun o => is_debug o = true)
         (out (_do_restart_node Agent node1 false (world fleet_flapping)))
  = [Log DEBUG "pausing" []] /\
  filter (fun o => is_debug o = true)
         (out (_do_restart_node Agent node1 false
                 (set_paused true (world fleet_flapping))))
  = [] /\
  visible (out (_do_restart_node Agent node1 false (world fleet_flapping)))
  = visible (out (_do_restart_node Agent node1 false
                    (set_paused true (world fleet_flapping)))).
Proof. repeat split; vm_compute; reflexivity. Qed.

(** The earlier variant behaves otherwise while paused: [verify] returns
    [None] and queues nothing, and [_do_verify_node] goes ahead. *)
Example earlier_variant_when_paused :
  res (verify Legacy [node1] true (set_paused true (world fleet_silent))) = Ok None /\
  queue (post (verify Legacy [node1] true (set_paused true (world fleet_silent))))
  = [] /\
  hd_error (broadcasts (out (_do_verify_node Legacy node1 true
                               (set_paused true (world fleet_silent)))))
  = Some (node1, Alive).
Proof. repeat split; vm_compute; reflexivity. Qed.

End Scenarios.

(** * Further properties of the supervisor *)

Section Actions.

Context {E : Type} `{External E}.

Implicit Types (w : World E) (v : Variant) (node : Node).

(** ** What the actions leave alone *)

Lemma on_incident_frame {X} (f : World E -> X) v c i :
  (forall p w, f (set_paused p w) = f w) ->
  (forall t w, f (set_broker_last_revived t w) = f w) ->
  keeps f (on_incident v c i).
Proof.
  intros Hp Hr.
  destruct i, v; unfold on_incident, errback, on_revive, on_broker_revive,
    pause, resume, log, respond_to_ping; walk.
Qed.

Lemma insured_frame {X} (f : World E -> X) {A} v node c (call : E -> Reply A * E) :
  (forall p w, f (set_paused p w) = f w) ->
  (forall t w, f (set_broker_last_revived t w) = f w) ->
  (forall e w, f (set_env e w) = f w) ->
  keeps f (insured v node c call).
Proof.
  intros Hp Hr He.
  pose proof (fun i => on_incident_frame f v c i Hp Hr).
  unfold insured. walk.
Qed.

Lemma ping_loop_frame {X} (f : World E -> X) v node schedule :
  (forall p w, f (set_paused p w) = f w) ->
  (forall t w, f (set_broker_last_revived t w) = f w) ->
  (forall e w, f (set_env e w) = f w) ->
  keeps f (ping_loop v node schedule).
Proof.
  intros Hp Hr He.
  pose proof (fun A n c (call : E -> Reply A * E) =>
                insured_frame f v n c call Hp Hr He).
  induction schedule as [|t rest IH]; cbn [ping_loop];
    unfold log, respond_to_ping; walk.
Qed.

(** Whatever the actions change, it is the collaborators, the flag
    [paused], the time of the last revival or the registry. *)
Lemma call_action_frame {X} (f : World E -> X) v a node kwargs :
  (forall p w, f (set_paused p w) = f w) ->
  (forall t w, f (set_broker_last_revived t w) = f w) ->
  (forall e w, f (set_env e w) = f w) ->
  (forall b w, f (set_buckets b w) = f w) ->
  keeps f (call_action v a node kwargs).
Proof.
  intros Hp Hr He Hb.
  pose proof (fun A n c (call : E -> Reply A * E) =>
                insured_frame f v n c call Hp Hr He).
  pose proof (fun schedule => ping_loop_frame f v node schedule Hp Hr He).
  unfold call_action, _do_verify_node, verify_node_body, _do_restart_node,
    _do_stop_node, _verify_restart_node, _verify_node_processes,
    current_autoscaler, _verify_node_queues, reconcile_queue, blocking, ib,
    buckets_getitem, _can_restart, bucket_can_consume, buckets_pop,
    buckets_pop_default, disable, log.
  walk.
Qed.

(** An action leaves the request queue, the numbering of completions,
    the stop flag and the wake-up counter as they are: actions never
    queue requests of their own. *)
Theorem actions_keep_the_queue v a node kwargs :
  keeps (E:=E) queue (call_action v a node kwargs) /\
  keeps (E:=E) next_event (call_action v a node kwargs) /\
  keeps (E:=E) should_stop (call_action v a node kwargs) /\
  keeps (E:=E) _rinfo_iterations (call_action v a node kwargs).
Proof. repeat split; by apply call_action_frame. Qed.

(** ** What the actions never send *)

Lemma noise_concerns node o : is_noise o -> concerns node o.
Proof. by destruct o. Qed.

Lemma insured_concerns {A} v node c (call : E -> Reply A * E) :
  c <> CancelQueue (direct_queue node) ->
  emits (concerns node) (insured v node c call).
Proof.
  intros Hc. apply insured_emits; [done | apply noise_concerns].
Qed.

Lemma reconcile_queue_concerns v node queues_ q :
  emits (concerns node) (reconcile_queue v node queues_ q).
Proof.
  unfold reconcile_queue, ib, log.
  destruct (bool_decide (q ∈ queues_)).
  - apply emits_bind; [by apply emits_emit|]. intros _.
    by apply insured_concerns.
  - destruct (String.eqb_spec q (direct_queue node)) as [Heq|Hne]; [apply emits_ret|].
    apply emits_bind; [by apply emits_emit|]. intros _.
    apply insured_concerns. intros [= Heq]. by apply Hne.
Qed.

Lemma ping_loop_concerns v node schedule :
  emits (concerns node) (ping_loop v node schedule).
Proof.
  pose proof (fun t => insured_concerns v node (RespondsToPing t)
                         (node_responds_to_ping node t)).
  induction schedule as [|t rest IH]; cbn [ping_loop];
    unfold log, respond_to_ping; walk.
Qed.

(** Whichever of the three actions runs on a node, with whatever
    arguments and whatever the collaborators answer: every command goes
    to that node, none cancels its direct queue, no other node is
    disabled, and no completion is signalled. *)
Theorem actions_concern_their_node v a node kwargs :
  emits (E:=E) (concerns node) (call_action v a node kwargs).
Proof.
  pose proof (fun A c (call : E -> Reply A * E) => insured_concerns v node c call).
  pose proof (ping_loop_concerns v node).
  pose proof (reconcile_queue_concerns v node).
  unfold call_action, _do_verify_node, verify_node_body, _do_restart_node,
    _do_stop_node, _verify_restart_node, _verify_node_processes,
    current_autoscaler, _verify_node_queues, blocking, ib,
    buckets_getitem, _can_restart, bucket_can_consume, buckets_pop,
    buckets_pop_default, disable, log.
  walk.
Qed.

End Actions.

Section Loop.

Context {E : Type} `{External E}.

Implicit Types (w : World E) (v : Variant) (node : Node).

(** ** One pass of the loop *)

Lemma completions_app l1 l2 :
  completions (l1 ++ l2) = completions l1 ++ completions l2.
Proof. apply omap_app. Qed.

Lemma noise_completions l : Forall is_noise l -> completions l = [].
Proof.
  induction 1 as [|o l Ho _ IH]; [done|].
  destruct o; simpl in *; try done; exact IH.
Qed.

Lemma silent_completions l :
  Forall (fun o => forall ev b, o <> EventSend ev b) l -> completions l = [].
Proof.
  induction 1 as [|o l Ho _ IH]; [done|].
  destruct o; simpl in *; try done. by destruct (Ho ev value).
Qed.

(** No action signals a completion, whatever its value. *)
Lemma call_action_silent v a node kwargs :
  emits (E:=E) (fun o => forall ev b, o <> EventSend ev b)
        (call_action v a node kwargs).
Proof.
  assert (Hins : forall A n c (call : E -> Reply A * E),
             emits (fun o => forall ev b, o <> EventSend ev b) (insured v n c call)).
  { intros. apply insured_emits; [done|]. intros o Ho ev b ->. discriminate Ho. }
  assert (Hping : forall schedule,
             emits (fun o => forall ev b, o <> EventSend ev b)
                   (ping_loop v node schedule)).
  { induction schedule as [|t rest IH]; cbn [ping_loop];
      unfold log, respond_to_ping; walk. }
  unfold call_action, _do_verify_node, verify_node_body, _do_restart_node,
    _do_stop_node, _verify_restart_node, _verify_node_processes,
    current_autoscaler, _verify_node_queues, reconcile_queue, blocking, ib,
    buckets_getitem, _can_restart, bucket_can_consume, buckets_pop,
    buckets_pop_default, disable, log.
  walk.
Qed.

(** Handling a request with one of the three actions: the completion
    comes last and is the only one, and the queue is not touched. *)
Lemma process_request_run v a kwargs nodes event w :
  let o := process_request (fun node => call_action v a node kwargs) nodes event w in
  (exists body, out o = body ++ [EventSend event true] /\ completions body = []) /\
  queue (post o) = queue w.
Proof.
  cbn zeta. unfold process_request, try_finally.
  set (loop := for_each nodes _).
  assert (Hsilent : emits (fun o => forall ev b, o <> EventSend ev b) loop).
  { apply emits_for_each. intros node. apply emits_try_except.
    - apply call_action_silent.
    - intros exc. by apply emits_emit. }
  assert (Hqueue : keeps queue loop).
  { apply keeps_for_each. intros node. apply keeps_try_except.
    - by apply call_action_frame.
    - intros exc. apply keeps_emit. }
  cbn [emit res post out].
  split; [|apply Hqueue].
  eexists. split; [reflexivity|]. apply (silent_completions _ (Hsilent w)).
Qed.

(** A pass of the loop with a request at the head of the queue: some
    noise, then the request is handled from a world whose queue is the
    rest. *)
Lemma run_iteration_head v r rest w :
  queue w = r :: rest ->
  exists pre w1,
    Forall is_noise pre /\
    queue w1 = rest /\
    post (run_iteration v w)
    = post (process_request
              (fun node => call_action v (req_action r) node (req_kwargs r))
              (req_nodes r) (req_event r) w1) /\
    out (run_iteration v w)
    = pre ++ out (process_request
                    (fun node => call_action v (req_action r) node (req_kwargs r))
                    (req_nodes r) (req_event r) w1).
Proof.
  intros Hqueue. unfold run_iteration.
  rewrite bind_get_post, bind_get_out, Hqueue.
  rewrite bind_modify_post, bind_modify_out.
  destruct v.
  - destruct (_rinfo_run "wake-up" (set_queue rest w)) as (n & Hres & Hpost & Hnoise).
    assert (Hwake : res (bind respond_to_ping (fun _ => _rinfo "wake-up")
                           (set_queue rest w)) = Ok tt) by exact Hres.
    rewrite (bind_ok_post _ _ _ tt Hwake), (bind_ok_out _ _ _ tt Hwake).
    eexists _, _. split; [|split; [|split; reflexivity]].
    + unfold respond_to_ping. rewrite bind_emit_out. by constructor.
    + unfold respond_to_ping. rewrite bind_emit_post, Hpost. reflexivity.
  - unfold log. rewrite bind_emit_post, bind_emit_out.
    exists [Log DEBUG "wake-up" []], (set_queue rest w).
    split; [by repeat constructor|]. by repeat split.
Qed.

(** Every pass of the loop that finds a request takes it off the head of
    the queue, leaves the others queued in their order, and signals that
    request's completion, with [True], once, as the last thing it does;
    no other completion is signalled. *)
Theorem run_serves_the_head v r rest w :
  queue w = r :: rest ->
  queue (post (run_iteration v w)) = rest /\
  completions (out (run_iteration v w)) = [(req_event r, true)] /\
  last (out (run_iteration v w)) = Some (EventSend (req_event r) true).
Proof.
  intros Hqueue.
  destruct (run_iteration_head v r rest w Hqueue) as (pre & w1 & Hpre & Hw1 & -> & ->).
  destruct (process_request_run v (req_action r) (req_kwargs r) (req_nodes r)
              (req_event r) w1) as ((body & -> & Hbody) & Hkeep).
  split; [by rewrite Hkeep|]. split.
  - by rewrite !completions_app, (noise_completions _ Hpre), Hbody.
  - by rewrite app_assoc, last_snoc.
Qed.

(** ** Requests in, completions out *)

(** Two requests made one after the other on an idle supervisor get
    completions of their own and are served by the next two passes of the
    loop in the order they were made: the first request's completion is
    signalled, then the second's, and the queue is empty again. *)
Theorem requests_are_served_in_order v nodes1 a1 k1 nodes2 a2 k2 w :
  queue w = [] ->
  let o1 := _request nodes1 a1 k1 w in
  let o2 := _request nodes2 a2 k2 (post o1) in
  let i1 := run_iteration v (post o2) in
  let i2 := run_iteration v (post i1) in
  res o1 = Ok (next_event w) /\
  res o2 = Ok (S (next_event w)) /\
  completions (out i1 ++ out i2)
  = [(next_event w, true); (S (next_event w), true)] /\
  queue (post i2) = [].
Proof.
  intros Hidle. cbn zeta.
  set (r1 := mkRequest nodes1 (next_event w) a1 k1).
  set (r2 := mkRequest nodes2 (S (next_event w)) a2 k2).
  assert (Hqueue : queue (post (_request nodes2 a2 k2 (post (_request nodes1 a1 k1 w))))
                   = [r1; r2]).
  { unfold _request, bind, get, modify. cbn [res post out queue set_queue
      set_next_event next_event]. rewrite Hidle. reflexivity. }
  split; [reflexivity|]. split; [reflexivity|].
  set (w2 := post (_request nodes2 a2 k2 (post (_request nodes1 a1 k1 w)))) in *.
  destruct (run_iteration_head v r1 [r2] w2 Hqueue) as (pre1 & w3 & Hpre1 & Hw3 & Hp1 & Ho1).
  destruct (process_request_run v (req_action r1) (req_kwargs r1) (req_nodes r1)
              (req_event r1) w3) as ((body1 & Hb1 & Hc1) & Hk1).
  assert (Hqueue' : queue (post (run_iteration v w2)) = [r2]).
  { by rewrite Hp1, Hk1. }
  destruct (run_iteration_head v r2 [] _ Hqueue') as (pre2 & w4 & Hpre2 & Hw4 & Hp2 & Ho2).
  destruct (process_request_run v (req_action r2) (req_kwargs r2) (req_nodes r2)
              (req_event r2) w4) as ((body2 & Hb2 & Hc2) & Hk2).
  split.
  - rewrite Ho1, Ho2, Hb1, Hb2, !completions_app.
    rewrite (noise_completions _ Hpre1), (noise_completions _ Hpre2), Hc1, Hc2.
    reflexivity.
  - by rewrite Hp2, Hk2.
Qed.

(** The periodic check never stacks: while the previous check of all
    nodes has not completed (and nobody forces one) [_verify_all] does
    nothing at all; with no previous check, with a completed one, or when
    forced, it queues exactly one rate-limited verification of all nodes
    and remembers its completion. *)
Theorem verify_all_never_stacks force last ready all_nodes w :
  (forall event,
      last = Some event -> ready event = false -> force = false ->
      _verify_all force last ready all_nodes w = mkOutcome (Ok (Some event)) w []) /\
  (last = None \/ force = true \/ (exists event, last = Some event /\ ready event = true) ->
   res (_verify_all force last ready all_nodes w) = Ok (Some (next_event w)) /\
   out (_verify_all force last ready all_nodes w) = [] /\
   queue (post (_verify_all force last ready all_nodes w))
   = queue w ++ [mkRequest all_nodes (next_event w) do_verify_node
                            {| kw_ratelimit := Some true |}] /\
   next_event (post (_verify_all force last ready all_nodes w)) = S (next_event w)).
Proof.
  split.
  - intros event -> Hready ->. unfold _verify_all. by rewrite Hready.
  - intros Hdue. unfold _verify_all.
    assert (Hcond : match last with
                    | None => true
                    | Some _ => match last with
                                | Some event => if ready event then true else force
                                | None => force
                                end
                    end = true).
    { destruct Hdue as [-> | [-> | (event & -> & ->)]]; [done| |done].
      destruct last as [event|]; [|done]. by destruct (ready event). }
    rewrite Hcond. done.
Qed.

End Loop.

Section Incidents.

Context {E : Type} `{External E}.

Implicit Types (w : World E) (v : Variant) (node : Node).

(** ** What connection incidents leave behind *)

Lemma on_incident_run v c i w :
  paused (post (on_incident v c i w))
  = match i with ConnError _ _ => true | Revived => false end /\
  broker_last_revived (post (on_incident v c i w))
  = match i with
    | ConnError _ _ => broker_last_revived w
    | Revived => Some (time_time (env w))
    end /\
  env (post (on_incident v c i w)) = env w.
Proof.
  destruct w as [e b p r q s n k].
  destruct i, v, p; repeat split.
Qed.

Lemma incidents_run v c (l : list Incident) w :
  paused (post (for_each l (on_incident v c) w))
  = match last l with
    | None => paused w
    | Some (ConnError _ _) => true
    | Some Revived => false
    end /\
  broker_last_revived (post (for_each l (on_incident v c) w))
  = (if bool_decide (Revived ∈ l) then Some (time_time (env w))
     else broker_last_revived w) /\
  env (post (for_each l (on_incident v c) w)) = env w.
Proof.
  revert w. induction l as [|i l IH]; intros w; [done|].
  destruct (on_incident_run v c i w) as (Hp & Hr & He).
  assert (Hi : res (on_incident v c i w) = Ok tt).
  { destruct w as [e b p r q s n k]. by destruct i, v, p. }
  cbn [for_each]. rewrite (bind_ok_post _ _ w tt Hi).
  destruct (IH (post (on_incident v c i w))) as (-> & -> & ->).
  rewrite Hp, Hr, He. split; [|split; [|done]].
  - destruct l as [|i' l]; [done|].
    change (last (i :: i' :: l)) with (last (i' :: l)).
    destruct (last (i' :: l)) as [j|] eqn:Hlast; [done|].
    by apply last_None in Hlast.
  - destruct i.
    + rewrite (bool_decide_ext (Revived ∈ ConnError exc interval :: l) (Revived ∈ l));
        [done|].
      rewrite elem_of_cons. split; [by intros [?|?] | by right].
    + rewrite (bool_decide_eq_true_2 (Revived ∈ Revived :: l)) by left.
      by destruct (bool_decide (Revived ∈ l)).
Qed.

(** After an insured call the supervisor is paused if the last thing
    that happened on the connection was an error, running if it was a
    revival, and as before if nothing happened; a revival during the call
    starts the cool-down at the current time; the registry is left
    alone. *)
Theorem insured_leaves_pause_state {A} v node c (call : E -> Reply A * E) w :
  paused (post (insured v node c call w))
  = match last (incidents (fst (call (env w)))) with
    | None => paused w
    | Some (ConnError _ _) => true
    | Some Revived => false
    end /\
  broker_last_revived (post (insured v node c call w))
  = (if bool_decide (Revived ∈ incidents (fst (call (env w))))
     then Some (time_time (snd (call (env w))))
     else broker_last_revived w) /\
  _buckets (post (insured v node c call w)) = _buckets w.
Proof.
  split; [|split; [|apply insured_keeps_buckets]];
    unfold insured, bind, emit, external; cbn [res post out];
    destruct (call (env w)) as [reply e]; cbn [res post out fst snd];
    rewrite incidents_res; cbn [res post out];
    destruct (incidents_run v c (incidents reply) (set_env e w)) as (Hp & Hr & _);
    destruct (outcome reply); cbn [res post out]; assumption.
Qed.

End Incidents.

Section Verification.

Context {E : Type} `{External E}.

Implicit Types (w : World E) (v : Variant) (node : Node).

(** ** Verifying one node *)

(** The rate-limiting in force when a node is verified. *)
Lemma _do_verify_node_unpaused v node ratelimit w :
  paused w = false ->
  _do_verify_node v node ratelimit w
  = match v with
    | Agent => let o := verify_node_body v node ratelimit w in
               mkOutcome (res o) (post o) (out o)
    | Legacy => verify_node_body v node true w
    end.
Proof.
  intros Hp. destruct v; [|reflexivity].
  unfold _do_verify_node, bind, get. cbn [res post out]. rewrite Hp. reflexivity.
Qed.

Lemma _do_stop_node_run node w :
  res (_do_stop_node node w) = fst (node_stop node (env w)) /\
  effects (out (_do_stop_node node w)) = [Broadcast node Stop] /\
  _buckets (post (_do_stop_node node w)) = _buckets w.
Proof.
  destruct (blocking_run node Stop (node_stop node) w) as (Hres & _ & Hout).
  unfold _do_stop_node, log.
  rewrite bind_emit_res, bind_emit_out, bind_emit_post, Hres, Hout.
  repeat split. apply blocking_keeps_buckets.
Qed.

(** A node that is disabled, or not saved yet, is only asked whether it
    is alive, and stopped if it is: no restart, no look at its queues or
    its autoscaler, no change to the registry. *)
Theorem disabled_node_is_stopped v node ratelimit w alive :
  is_enabled node && pk_truthy node = false ->
  paused w = false ->
  outcome (fst (node_alive node (env w))) = Ok alive ->
  effects (out (_do_verify_node v node ratelimit w))
  = Broadcast node Alive :: (if alive then [Broadcast node Stop] else []) /\
  _buckets (post (_do_verify_node v node ratelimit w)) = _buckets w.
Proof.
  intros Hoff Hp Halive.
  pose proof (insured_res v node Alive (node_alive node) w) as Hq.
  rewrite Halive in Hq.
  assert (Hbody : forall rl,
    effects (out (verify_node_body v node rl w))
    = Broadcast node Alive :: (if alive then [Broadcast node Stop] else []) /\
    _buckets (post (verify_node_body v node rl w)) = _buckets w).
  { intros rl. unfold verify_node_body, ib. rewrite Hoff.
    rewrite (bind_ok_out _ _ w alive Hq), (bind_ok_post _ _ w alive Hq).
    rewrite effects_app, insured_effects.
    destruct alive.
    - destruct (_do_stop_node_run node (post (insured v node Alive (node_alive node) w)))
        as (_ & -> & ->).
      split; [done|]. apply insured_keeps_buckets.
    - split; [done|]. apply insured_keeps_buckets. }
  rewrite (_do_verify_node_unpaused v node ratelimit w Hp).
  destruct v; apply Hbody.
Qed.

(** ** The two checks of a running node *)

Lemma noise_gentle o : is_noise o -> gentle o.
Proof. by destruct o. Qed.

Lemma insured_gentle {A} v node c (call : E -> Reply A * E) :
  c <> Restart -> c <> Stop -> emits gentle (insured v node c call).
Proof.
  intros Hr Hs. apply insured_emits; [|apply noise_gentle].
  by destruct c.
Qed.

Lemma checks_gentle v node :
  emits (E:=E) gentle
        (bind (_verify_node_processes v node) (fun _ => _verify_node_queues v node)).
Proof.
  assert (Hins : forall A c (call : E -> Reply A * E),
             c <> Restart -> c <> Stop -> emits gentle (insured v node c call)).
  { intros. by apply insured_gentle. }
  unfold _verify_node_processes, current_autoscaler, _verify_node_queues,
    reconcile_queue, ib, log.
  walk.
Qed.

Lemma checks_keep_buckets v node :
  keeps (E:=E) _buckets
        (bind (_verify_node_processes v node) (fun _ => _verify_node_queues v node)).
Proof.
  unfold _verify_node_processes, current_autoscaler, _verify_node_queues,
    reconcile_queue, ib, log.
  walk.
Qed.

Lemma _do_restart_node_never_stops v node ratelimit :
  emits (E:=E) (fun o => forall n, o <> Broadcast n Stop)
        (_do_restart_node v node ratelimit).
Proof.
  assert (Hins : forall A c (call : E -> Reply A * E),
             c <> Stop ->
             emits (fun o => forall n, o <> Broadcast n Stop) (insured v node c call)).
  { intros A c call Hc. apply insured_emits.
    - intros n [= _ Heq]. by apply Hc.
    - intros o Ho n ->. discriminate Ho. }
  assert (Hping : forall schedule,
             emits (fun o => forall n, o <> Broadcast n Stop)
                   (ping_loop v node schedule)).
  { induction schedule as [|t rest IH]; cbn [ping_loop];
      unfold log, respond_to_ping; walk. }
  unfold _do_restart_node, _verify_restart_node, blocking, buckets_getitem,
    _can_restart, bucket_can_consume, buckets_pop, buckets_pop_default,
    disable, log.
  walk.
Qed.

Lemma forall_occurrences (x : Obs) (P : Obs -> Prop) l :
  ~ P x -> Forall P l -> occurrences x l = 0%nat.
Proof.
  intros Hx Hall. apply occurrences_not_in. intros Hin.
  rewrite Forall_forall in Hall. by apply Hx, Hall.
Qed.

(** An enabled node is never stopped by its verification, whatever it
    answers; and if it answers that it is alive, the verification neither
    restarts nor disables it and leaves the registry as it is. *)
Theorem enabled_node_is_not_stopped v node ratelimit w :
  is_enabled node && pk_truthy node = true ->
  (forall n, occurrences (Broadcast n Stop)
                         (out (_do_verify_node v node ratelimit w)) = 0%nat) /\
  (outcome (fst (node_alive node (env w))) = Ok true ->
   Forall gentle (out (_do_verify_node v node ratelimit w)) /\
   _buckets (post (_do_verify_node v node ratelimit w)) = _buckets w).
Proof.
  intros Hon. split.
  - intros n.
    apply (forall_occurrences _ (fun o => forall n, o <> Broadcast n Stop));
      [by intros Hn; apply (Hn n)|].
    revert w.
    change (emits (fun o => forall n, o <> Broadcast n Stop)
                  (_do_verify_node v node ratelimit)).
    assert (Hins : forall A c (call : E -> Reply A * E),
               c <> Stop ->
               emits (fun o => forall n, o <> Broadcast n Stop) (insured v node c call)).
    { intros A c call Hc. apply insured_emits.
      - intros n' [= _ Heq]. by apply Hc.
      - intros o Ho n' ->. discriminate Ho. }
    pose proof (_do_restart_node_never_stops v node).
    unfold _do_verify_node, verify_node_body. rewrite Hon.
    unfold _verify_node_processes, current_autoscaler, _verify_node_queues,
      reconcile_queue, ib, log.
    walk.
  - intros Halive.
    pose proof (insured_res v node Alive (node_alive node) w) as Hq.
    rewrite Halive in Hq.
    assert (Hbody : forall rl,
      Forall gentle (out (verify_node_body v node rl w)) /\
      _buckets (post (verify_node_body v node rl w)) = _buckets w).
    { intros rl. unfold verify_node_body, ib. rewrite Hon.
      rewrite (bind_ok_out _ _ w true Hq), (bind_ok_post _ _ w true Hq).
      cbn [negb]. rewrite bind_ret_out, bind_ret_post.
      split.
      - apply Forall_app. split; [by apply insured_gentle | apply checks_gentle].
      - rewrite checks_keep_buckets. apply insured_keeps_buckets. }
    destruct (paused w) eqn:Hp.
    + destruct v.
      * rewrite (_do_verify_node_paused node ratelimit w Hp). by split.
      * apply Hbody.
    + rewrite (_do_verify_node_unpaused v node ratelimit w Hp).
      destruct v; apply Hbody.
Qed.

(** ** Verification right after a broker revival *)

Lemma insured_revived {A} v node c (call : E -> Reply A * E) w :
  Revived ∈ incidents (fst (call (env w))) ->
  ~ gate_open (post (insured v node c call w)).
Proof.
  intros Hrev.
  pose proof (insured_env v node c call w) as Henv.
  assert (Hblr : broker_last_revived (post (insured v node c call w))
                 = Some (time_time (snd (call (env w))))).
  { unfold insured, bind, emit, external. cbn [res post out].
    destruct (call (env w)) as [reply e]. cbn [res post out fst snd] in *.
    rewrite incidents_res. cbn [res post out].
    destruct (incidents_run v c (incidents reply) (set_env e w)) as (_ & Hr & _).
    rewrite bool_decide_eq_true_2 in Hr by exact Hrev.
    destruct (outcome reply); cbn [res post out]; exact Hr. }
  intros [Hnone | (t & Ht & Hlt)]; [congruence|].
  rewrite Hblr in Ht. injection Ht as <-. rewrite Henv in Hlt.
  revert Hlt. unfold wait_after_broker_revived.
  set (now := time_time (snd (call (env w)))).
  intros Hlt. assert (Hzero : (now - now == 0)%Q) by ring.
  rewrite Hzero in Hlt. discriminate Hlt.
Qed.

(** A rate-limited verification during which the broker connection is
    revived while the node is asked whether it is alive does not restart
    the node, even if the node is down, and does not disable or stop it:
    the restart waits for the cool-down. *)
Theorem revival_defers_the_restart v node w :
  is_enabled node && pk_truthy node = true ->
  Revived ∈ incidents (fst (node_alive node (env w))) ->
  Forall gentle (out (_do_verify_node v node true w)).
Proof.
  intros Hon Hrev.
  pose proof (insured_revived v node Alive (node_alive node) w Hrev) as Hgate.
  assert (Hbody : Forall gentle (out (verify_node_body v node true w))).
  { unfold verify_node_body, ib. rewrite Hon.
    destruct (res (insured v node Alive (node_alive node) w)) as [alive|exc] eqn:Hq.
    - rewrite (bind_ok_out _ _ w alive Hq).
      apply Forall_app. split; [by apply insured_gentle|].
      destruct alive; cbn [negb].
      + rewrite bind_ret_out. apply checks_gentle.
      + destruct (_do_restart_node_deferred v node _ Hgate) as (Hres & Hout & _).
        rewrite (bind_ok_out _ _ _ tt Hres), Hout. apply checks_gentle.
    - rewrite (proj2 (proj2 (bind_raise _ _ w exc Hq))). by apply insured_gentle. }
  destruct (paused w) eqn:Hp.
  - destruct v; [|exact Hbody].
    rewrite (_do_verify_node_paused node true w Hp). constructor.
  - rewrite (_do_verify_node_unpaused v node true w Hp). destruct v; exact Hbody.
Qed.

End Verification.

Section Edges.

Context {E : Type} `{External E}.

Implicit Types (w : World E) (v : Variant) (node : Node).

(** ** A malformed autoscaler entry *)

(** Only the lookup of ["autoscaler"] is guarded: when the entry is there
    but has no ["max"] (or is no map), the exception of that lookup leaves
    [_verify_node_processes], nothing is sent after the query, and the
    verification of a running node ends there, before its queues are
    looked at. *)
Theorem malformed_autoscaler_aborts v node ratelimit w alive_reply e1 stats current exc :
  is_enabled node && pk_truthy node = true ->
  paused w = false ->
  node_alive node (env w) = (alive_reply, e1) ->
  outcome alive_reply = Ok true ->
  outcome (fst (node_stats node e1)) = Ok stats ->
  subscript stats "autoscaler" = Ok current ->
  subscript current "max" = Raise exc ->
  res (_do_verify_node v node ratelimit w) = Raise exc /\
  effects (out (_do_verify_node v node ratelimit w))
  = [Broadcast node Alive; Broadcast node Stats].
Proof.
  intros Hon Hp Hcall Halive Hstats Hsub Hmax.
  pose proof (insured_res v node Alive (node_alive node) w) as Hq.
  pose proof (insured_env v node Alive (node_alive node) w) as Henv.
  rewrite Hcall in Hq, Henv. cbn [fst snd] in Hq, Henv. rewrite Halive in Hq.
  set (w1 := post (insured v node Alive (node_alive node) w)) in *.
  rewrite <- Henv in Hstats.
  destruct (current_autoscaler_run v node w1 stats Hstats) as [Hcur Hcureff].
  rewrite Hsub in Hcur.
  assert (Hproc : res (_verify_node_processes v node w1) = Raise exc /\
                  effects (out (_verify_node_processes v node w1))
                  = [Broadcast node Stats]).
  { unfold _verify_node_processes. cbn zeta.
    rewrite (bind_ok_res _ _ w1 _ Hcur), (bind_ok_out _ _ w1 _ Hcur), effects_app,
      Hcureff, Hmax.
    split; reflexivity. }
  destruct Hproc as [Hpres Hpeff].
  assert (Hbody : forall rl,
    res (verify_node_body v node rl w) = Raise exc /\
    effects (out (verify_node_body v node rl w))
    = [Broadcast node Alive; Broadcast node Stats]).
  { intros rl. unfold verify_node_body, ib. rewrite Hon.
    rewrite (bind_ok_res _ _ w true Hq), (bind_ok_out _ _ w true Hq).
    cbn [negb]. rewrite bind_ret_res, bind_ret_out.
    fold w1.
    rewrite (proj1 (bind_raise _ _ w1 exc Hpres)).
    rewrite (proj2 (proj2 (bind_raise _ _ w1 exc Hpres))).
    rewrite effects_app, insured_effects, Hpeff. done. }
  rewrite (_do_verify_node_unpaused v node ratelimit w Hp).
  destruct v; apply Hbody.
Qed.

(** ** Queues already in step *)

Lemma reconcile_queue_skip v node queues_ q w :
  loop_command node queues_ q = None ->
  reconcile_queue v node queues_ q w = mkOutcome (Ok tt) w [].
Proof.
  unfold loop_command, reconcile_queue.
  destruct (bool_decide (q ∈ queues_)); [done|].
  by destruct (String.eqb q (direct_queue node)).
Qed.

Lemma reconcile_loop_skip v node queues_ l w :
  Forall (fun q => loop_command node queues_ q = None) l ->
  for_each l (reconcile_queue v node queues_) w = mkOutcome (Ok tt) w [].
Proof.
  induction 1 as [|q l Hq _ IH]; [done|].
  cbn [for_each]. unfold bind. rewrite (reconcile_queue_skip v node queues_ q w Hq).
  cbn [res post out]. by rewrite IH.
Qed.

(** When the node consumes from every queue it declares and from nothing
    else, its direct queue apart, [_verify_node_queues] sends the query
    and nothing more, and returns: reconciling twice does no harm. *)
Theorem queues_in_step_need_nothing v node w items :
  outcome (fst (node_consuming_from node (env w))) = Ok (Some items) ->
  (forall q, q ∈ queues node -> q ∈ map fst items) ->
  (forall q, q ∈ map fst items -> q ∈ queues node \/ q = direct_queue node) ->
  res (_verify_node_queues v node w) = Ok tt /\
  effects (out (_verify_node_queues v node w)) = [Broadcast node ConsumingFrom].
Proof.
  intros Hreply Hdeclared Hobserved.
  pose proof (insured_res v node ConsumingFrom (node_consuming_from node) w) as Hq.
  rewrite Hreply in Hq.
  unfold _verify_node_queues, ib.
  rewrite (bind_ok_res _ _ w _ Hq), (bind_ok_out _ _ w _ Hq).
  rewrite reconcile_loop_skip.
  - cbn [res out]. by rewrite app_nil_r, insured_effects.
  - apply Forall_forall. intros q Hin.
    apply elem_of_symmetric_difference in Hin.
    unfold set_of in Hin. rewrite !elem_of_remove_dups in Hin.
    unfold loop_command.
    destruct Hin as [[Hobs Hndecl] | [Hdecl Hnobs]].
    + rewrite bool_decide_eq_false_2
        by (unfold set_of; by rewrite elem_of_remove_dups).
      destruct (Hobserved q Hobs) as [Hdecl | ->]; [done|].
      by rewrite String.eqb_refl.
    + destruct Hnobs. by apply Hdeclared.
Qed.

(** ** An explicit restart *)

Lemma _verify_restart_node_effects v node w :
  exists timeouts,
    timeouts `prefix_of` ping_schedule v /\
    effects (out (_verify_restart_node v node w))
    = Broadcast node Restart
        :: map (fun t => Broadcast node (RespondsToPing t)) timeouts.
Proof.
  destruct (blocking_run node Restart (node_restart node) w) as (Hbres & _ & Hbout).
  destruct (fst (node_restart node (env w))) as [[]|exc] eqn:Hrestart.
  - pose proof (_verify_restart_node_run v node w Hrestart) as Hrun.
    destruct (ping_loop_run v node (ping_schedule v)
                (post (blocking node Restart (node_restart node) w))) as [_ Hpeff].
    eexists. split; [apply prefix_take|].
    destruct (res (ping_loop v node (ping_schedule v) _)) as [alive|exc];
      destruct Hrun as [_ ->].
    + rewrite effects_cons_noise, effects_cons_effect, effects_app, Hpeff by done.
      by rewrite app_nil_r.
    + by rewrite effects_cons_noise, effects_cons_effect, Hpeff.
  - exists []. split; [apply prefix_nil|].
    unfold _verify_restart_node, log.
    rewrite bind_emit_out, (proj2 (proj2 (bind_raise _ _ w exc Hbres))), Hbout.
    reflexivity.
Qed.

(** The restart action as the [restart] call queues it, without
    arguments, is never rate-limited: whatever the gate and the node's
    bucket say, the node is sent one restart, then probes from the
    schedule, and nothing else; it is never disabled. *)
Theorem explicit_restart_always_restarts v node w :
  exists timeouts,
    timeouts `prefix_of` ping_schedule v /\
    effects (out (call_action v do_restart_node node no_kwargs w))
    = Broadcast node Restart
        :: map (fun t => Broadcast node (RespondsToPing t)) timeouts.
Proof.
  assert (Hcall : call_action v do_restart_node node no_kwargs w
                  = _do_restart_node v node false w) by (by destruct v).
  rewrite Hcall.
  destruct (_do_restart_node_unlimited v node w) as (w1 & _ & _ & _ & _ & ->).
  apply _verify_restart_node_effects.
Qed.

(** ** The restart rate *)

Lemma fresh_bucket_grants node w :
  _buckets w !! restart_key node = None ->
  token_available node w = true /\
  snd (can_consume 1 (time_time (env w)) (bucket_of node w))
  = mkTokenBucket restart_max_rate 1 0 (time_time (env w)).
Proof.
  intros Hnone. unfold token_available, bucket_of. rewrite Hnone. by split.
Qed.

Lemma spent_bucket_denies (t0 t1 : Q) :
  (t1 - t0 < 60)%Q ->
  fst (can_consume 1 t1 (mkTokenBucket restart_max_rate 1 0 t0)) = false.
Proof.
  intros Hsoon.
  assert (Hlow : (qadd 0 (qmul restart_max_rate (qsub t1 t0)) < 1)%Q).
  { unfold qadd, qmul, qsub, restart_max_rate. rewrite !Qred_correct. lra. }
  unfold can_consume, _get_tokens.
  cbn [_tokens capacity fill_rate timestamp].
  change (qlt 0 1) with true. cbn iota.
  cbn [_tokens capacity fill_rate timestamp].
  unfold qmin. rewrite (proj2 (qlt_spec _ _) Hlow).
  unfold qle. destruct (Qle_bool 1 _) eqn:Hle; [|done].
  apply Qle_bool_iff in Hle. by apply Qlt_not_le in Hlow.
Qed.

(** A node without a bucket is restarted by a first rate-limited attempt
    (gate open); a second rate-limited attempt less than 60 seconds after
    the first, with the bucket as the first one left it, finds the bucket
    empty: it disables the node instead of restarting it and drops the
    bucket. *)
Theorem second_restart_within_a_minute_disables v node w w2 :
  _buckets w !! restart_key node = None ->
  gate_open w ->
  _buckets w2 !! restart_key node
  = _buckets (post (_do_restart_node v node true w)) !! restart_key node ->
  gate_open w2 ->
  (time_time (env w2) - time_time (env w) < 60)%Q ->
  hd_error (effects (out (_do_restart_node v node true w)))
  = Some (Broadcast node Restart) /\
  effects (out (_do_restart_node v node true w2)) = [Disable node] /\
  _buckets (post (_do_restart_node v node true w2)) !! restart_key node = None.
Proof.
  intros Hnone Hgate Hsame Hgate2 Hsoon.
  destruct (fresh_bucket_grants node w Hnone) as [Htoken Hspent].
  destruct (_do_restart_node_granted v node w Hgate Htoken)
    as (w1 & _ & Hb1 & _ & Hpost & Hout).
  rewrite Hpost, _verify_restart_node_keeps_buckets, Hb1, lookup_insert_eq, Hspent
    in Hsame.
  assert (Htoken2 : token_available node w2 = false).
  { unfold token_available, bucket_of. rewrite Hsame. cbn [default].
    by apply spent_bucket_denies. }
  destruct (_do_restart_node_exhausted v node w2 Hgate2 Htoken2) as (_ & Hout2 & Hb2).
  split; [|split].
  - rewrite Hout. by destruct (_verify_restart_node_effects v node w1) as (ts & _ & ->).
  - by rewrite Hout2.
  - rewrite Hb2. apply lookup_delete_eq.
Qed.

(** ** Pausing and resuming *)

(** [pause] leaves the supervisor paused and [resume] leaves it running,
    whatever it was before; doing either a second time changes nothing
    and logs no debug line; neither touches anything but the flag; and
    resuming after pausing a running supervisor gives back the world as it
    was. *)
Theorem pause_and_resume_are_idempotent v w :
  paused (post (pause v w)) = true /\
  paused (post (resume v w)) = false /\
  post (pause v (post (pause v w))) = post (pause v w) /\
  filter (fun o => is_debug o = true) (out (pause v (post (pause v w)))) = [] /\
  post (resume v (post (resume v w))) = post (resume v w) /\
  filter (fun o => is_debug o = true) (out (resume v (post (resume v w)))) = [] /\
  same_but_paused (post (pause v w)) w /\
  same_but_paused (post (resume v w)) w /\
  (paused w = false -> post (resume v (post (pause v w))) = w).
Proof.
  destruct w as [e b p r q s n k].
  destruct v, p; repeat split; done.
Qed.

End Edges.

(** * Properties of the application shell *)

Section ShellProperties.

Import App.

Context {X : Type} `{Host X}.

Lemma restores_bind {A B} (m : Sh X A) (k : A -> Sh X B) :
  restores_getpass m -> (forall a, restores_getpass (k a)) ->
  restores_getpass (sh_bind m k).
Proof.
  intros Hm Hk p. unfold sh_bind. specialize (Hm p).
  destruct (result (m p)) as [a|e]; cbn [after]; [|done].
  by rewrite Hk.
Qed.

Lemma restores_except {A} (body handler : Sh X A) :
  restores_getpass body -> restores_getpass handler ->
  restores_getpass (sh_except_interrupt body handler).
Proof.
  intros Hb Hh p. unfold sh_except_interrupt. specialize (Hb p).
  destruct (result (body p)) as [a|[| |]]; cbn [after]; try done.
  by rewrite Hh.
Qed.

Lemma restores_call o (call : X -> AppResult unit * X) :
  restores_getpass (sh_call o call).
Proof. intros p. unfold sh_call. by destruct (call (host p)). Qed.

(** [syncdb] runs the command with the fallback prompt in place of
    [getpass.getpass] and puts back what was there before, whether the
    command returns or raises; it ends as the command ends. *)
Theorem syncdb_restores_getpass (app : BaseApp X) (p : Process X) :
  getpass_getpass (after (syncdb app p)) = getpass_getpass p /\
  SCS_INSTANCE_DIR (after (syncdb app p)) = SCS_INSTANCE_DIR p /\
  trace (syncdb app p)
  = [CallCommand "syncdb" (interactive app) fallback_getpass] /\
  result (syncdb app p) = fst (call_command "syncdb" (interactive app) (host p)).
Proof.
  unfold syncdb, sh_bind, sh_finally, sh_get, set_getpass, sh_call.
  cbn [result after trace getpass_getpass SCS_INSTANCE_DIR host].
  destruct (call_command "syncdb" (interactive app) (host p)) as [[[]|e] x];
    repeat split.
Qed.

Lemma restores_syncdb (app : BaseApp X) : restores_getpass (syncdb app).
Proof.
  intros p.
  unfold syncdb, sh_bind, sh_finally, sh_get, set_getpass, sh_call.
  cbn [result after trace getpass_getpass SCS_INSTANCE_DIR host].
  by destruct (call_command "syncdb" (interactive app) (host p)) as [[[]|e] x].
Qed.

Lemma restores_configure (app : BaseApp X) : restores_getpass (configure app).
Proof.
  unfold configure. apply restores_bind; [done|]. intros c.
  apply restores_bind; [destruct (negb c); apply restores_call|]. intros _.
  destruct (instance_dir app) as [d|]; [|done].
  by destruct (d =? "")%string.
Qed.

Lemma restores_run (app : BaseApp X) argv : restores_getpass (sh_run app argv).
Proof. intros p. unfold sh_run. by destruct (run app argv (host p)). Qed.

(** With [--version] among the arguments [run_from_argv] prints the
    version line and exits with status 0: nothing is configured, no
    database is synchronised, the command does not run and the process is
    left as it was. *)
Theorem version_flag_short_circuits (pkg : Package) (app : BaseApp X)
        (argv : option (list string)) (sys_argv : list string)
        (p : Process X) :
  "--version" ∈ effective_argv argv sys_argv ->
  run_from_argv pkg app argv sys_argv p
  = mkRun (Raises (SystemExit (Some 0))) p
          [Printed ("scs v" ++ __version__ pkg)%string].
Proof.
  intros Hin. unfold run_from_argv. fold (effective_argv argv sys_argv).
  rewrite bool_decide_eq_true_2 by done.
  reflexivity.
Qed.



Lemma no_ran_bind {A B} (m : Sh X A) (k : A -> Sh X B) :
  no_ran m -> (forall a, no_ran (k a)) -> no_ran (sh_bind m k).
Proof.
  intros Hm Hk p a. unfold sh_bind. specialize (Hm p a).
  destruct (result (m p)) as [x|e]; cbn [trace]; [|done].
  rewrite elem_of_app. intros [?|?]; [done|]. by eapply Hk.
Qed.

Lemma no_ran_call o (call : X -> AppResult unit * X) :
  (forall a, o <> Ran a) -> no_ran (sh_call o call).
Proof.
  intros Ho p a. unfold sh_call. destruct (call (host p)) as [r x].
  cbn [trace]. rewrite list_elem_of_singleton. intros E. by eapply Ho.
Qed.

Lemma no_ran_configure (app : BaseApp X) : no_ran (configure app).
Proof.
  unfold configure. apply no_ran_bind.
  { intros p a. cbn. apply not_elem_of_nil. }
  intros c. apply no_ran_bind.
  { destruct (negb c); by apply no_ran_call. }
  intros _ p a. destruct (instance_dir app) as [d|]; [destruct (d =? "")%string|];
    cbn; apply not_elem_of_nil.
Qed.

Lemma no_ran_syncdb (app : BaseApp X) : no_ran (syncdb app).
Proof.
  intros p a.
  unfold syncdb, sh_bind, sh_finally, sh_get, set_getpass, sh_call.
  cbn [result after trace getpass_getpass SCS_INSTANCE_DIR host].
  destruct (call_command "syncdb" (interactive app) (host p)) as [[[]|e] x];
    cbn; rewrite list_elem_of_singleton; done.
Qed.

Lemma run_last_bind {A} argv (m : Sh X A) (k : A -> Sh X Z) :
  no_ran m -> (forall a, run_last argv (k a)) -> run_last argv (sh_bind m k).
Proof.
  intros Hm Hk p. unfold sh_bind.
  destruct (result (m p)) as [x|e]; cbn [trace].
  - destruct (Hk x (after (m p))) as (pre & Hpre & [E|E]).
    + exists (trace (m p) ++ pre). split.
      * intros a. rewrite elem_of_app. intros [?|?]; [by eapply Hm|by eapply Hpre].
      * left. by rewrite E.
    + exists (trace (m p) ++ pre). split.
      * intros a. rewrite elem_of_app. intros [?|?]; [by eapply Hm|by eapply Hpre].
      * right. by rewrite E, app_assoc.
  - exists (trace (m p)). split; [apply Hm|by left].
Qed.

Lemma run_last_except argv (body handler : Sh X Z) :
  run_last argv body -> (forall p, trace (handler p) = []) ->
  run_last argv (sh_except_interrupt body handler).
Proof.
  intros Hb Hh p. unfold sh_except_interrupt.
  destruct (result (body p)) as [a|[| |]]; try apply Hb.
  cbn [trace]. rewrite Hh, app_nil_r. apply Hb.
Qed.

Lemma run_last_run (app : BaseApp X) argv : run_last argv (sh_run app argv).
Proof.
  intros p. exists []. split; [intros a; apply not_elem_of_nil|].
  right. unfold sh_run. by destruct (run app argv (host p)).
Qed.

(** The command is the last thing [run_from_argv] does: when it is run,
    it is run on the argument list given (on [sys.argv] when none is),
    and nothing follows it. *)
Theorem command_runs_last (pkg : Package) (app : BaseApp X)
        (argv : option (list string)) (sys_argv : list string)
        (p : Process X) (a : list string) :
  Ran a ∈ trace (run_from_argv pkg app argv sys_argv p) ->
  a = effective_argv argv sys_argv /\
  ("--version" ∉ a) /\
  last (trace (run_from_argv pkg app argv sys_argv p)) = Some (Ran a).
Proof.
  unfold run_from_argv. fold (effective_argv argv sys_argv).
  set (args := effective_argv argv sys_argv).
  set (protected := sh_except_interrupt _ _).
  assert (Hlast : run_last args protected).
  { apply run_last_except; [|by destruct (DEBUG pkg)].
    apply run_last_bind; [apply no_ran_configure|]. intros _.
    apply run_last_bind.
    { destruct (needs_syncdb app); [apply no_ran_syncdb|].
      intros ? ?. apply not_elem_of_nil. }
    intros _. apply run_last_bind.
    { destruct (DEBUG pkg); [by apply no_ran_call|].
      intros ? ?. apply not_elem_of_nil. }
    intros _. apply run_last_bind; [by apply no_ran_call|]. intros _.
    apply run_last_bind; [by apply no_ran_call|]. intros _.
    apply run_last_run. }
  destruct (bool_decide ("--version" ∈ args)) eqn:Hv.
  - cbn. rewrite list_elem_of_singleton. done.
  - apply bool_decide_eq_false_1 in Hv.
    change (trace (sh_bind (sh_ret tt) (fun _ => protected) p))
      with (trace (protected p)).
    destruct (Hlast p) as (pre & Hpre & [E|E]); rewrite E.
    + intros Hin. by apply Hpre in Hin.
    + rewrite elem_of_app, list_elem_of_singleton.
      intros [Hin|Heq]; [by apply Hpre in Hin|].
      injection Heq as ->. split; [done|]. split; [done|]. apply last_snoc.
Qed.

End ShellProperties.

(** * The properties at work *)

Module Cases.

Import Scripted Drills.

(** A pass of the loop over [stop_requested]. *)
Lemma run_serves_the_head_witness :
  queue (post (run_iteration Agent stop_requested))
  = [mkRequest [node2] 6 do_restart_node no_kwargs] /\
  completions (out (run_iteration Agent stop_requested)) = [(5%nat, true)] /\
  last (out (run_iteration Agent stop_requested)) = Some (EventSend 5 true).
Proof.
  exact (run_serves_the_head Agent
           (mkRequest [node1] 5 do_stop_node no_kwargs)
           [mkRequest [node2] 6 do_restart_node no_kwargs]
           stop_requested eq_refl).
Defined.

(** A restart of [node1] and a shutdown of [node2] requested from a
    supervisor that has just started. *)
Lemma requests_are_served_in_order_witness :
  let w := world fleet0 in
  let o1 := _request [node1] do_restart_node no_kwargs w in
  let o2 := _request [node2] do_stop_node no_kwargs (post o1) in
  let i1 := run_iteration Agent (post o2) in
  let i2 := run_iteration Agent (post i1) in
  res o1 = Ok 0%nat /\
  res o2 = Ok 1%nat /\
  completions (out i1 ++ out i2) = [(0%nat, true); (1%nat, true)] /\
  queue (post i2) = [].
Proof.
  pose proof (requests_are_served_in_order Agent [node1] do_restart_node
                no_kwargs [node2] do_stop_node no_kwargs (world fleet0) eq_refl)
    as Hserved.
  vm_compute in Hserved. vm_compute. exact Hserved.
Defined.

(** A node switched off in the model but still running. *)
Lemma disabled_node_is_stopped_witness :
  effects (out (_do_verify_node Agent node_off true (world fleet0)))
  = [Broadcast node_off Alive; Broadcast node_off Stop] /\
  _buckets (post (_do_verify_node Agent node_off true (world fleet0))) = ∅.
Proof.
  exact (disabled_node_is_stopped Agent node_off true (world fleet0) true
           eq_refl eq_refl eq_refl).
Defined.

(** A healthy node. *)
Lemma enabled_node_is_not_stopped_witness :
  occurrences (Broadcast node1 Stop)
              (out (_do_verify_node Agent node1 true (world fleet0))) = 0%nat /\
  Forall gentle (out (_do_verify_node Agent node1 true (world fleet0))).
Proof.
  destruct (enabled_node_is_not_stopped Agent node1 true (world fleet0) eq_refl)
    as [Hstop Halive].
  destruct (Halive eq_refl) as [Hgentle _].
  exact (conj (Hstop node1) Hgentle).
Defined.

(** A node that is down, asked while the connection comes back. *)
Lemma revival_defers_the_restart_witness :
  Revived ∈ incidents (fst (node_alive node1 (env (world fleet_revived)))) /\
  Forall gentle (out (_do_verify_node Agent node1 true (world fleet_revived))).
Proof.
  assert (Hrev : Revived ∈ incidents (fst (node_alive node1 (env (world fleet_revived))))).
  { cbn. set_solver. }
  exact (conj Hrev (revival_defers_the_restart Agent node1 (world fleet_revived)
                      eq_refl Hrev)).
Defined.

(** An autoscaler entry without bounds. *)
Lemma malformed_autoscaler_aborts_witness :
  res (_do_verify_node Agent node1 true (world fleet_malformed))
  = Raise (KeyError "max") /\
  effects (out (_do_verify_node Agent node1 true (world fleet_malformed)))
  = [Broadcast node1 Alive; Broadcast node1 Stats].
Proof.
  exact (malformed_autoscaler_aborts Agent node1 true (world fleet_malformed)
           _ _ _ _ _ eq_refl eq_refl eq_refl eq_refl eq_refl eq_refl eq_refl).
Defined.

(** [node1] consuming from what it declares and from its direct queue. *)
Lemma queues_in_step_need_nothing_witness :
  res (_verify_node_queues Agent node1 (world fleet_in_step)) = Ok tt /\
  effects (out (_verify_node_queues Agent node1 (world fleet_in_step)))
  = [Broadcast node1 ConsumingFrom].
Proof.
  assert (Hreply : outcome (fst (node_consuming_from node1 (env (world fleet_in_step))))
                   = Ok (Some [("q1", PNone); ("q2", PNone); ("d", PNone)]))
    by reflexivity.
  apply (queues_in_step_need_nothing Agent node1 (world fleet_in_step) _ Hreply).
  - intros q Hq. cbn in Hq |- *.
    rewrite !elem_of_cons in Hq. rewrite !elem_of_cons. tauto.
  - intros q Hq. cbn in Hq |- *.
    rewrite !elem_of_cons in Hq. rewrite !elem_of_cons. tauto.
Defined.

(** Two rate-limited restarts of [node1] half a minute apart. *)
Lemma second_restart_within_a_minute_disables_witness :
  (time_time (env after_first_restart) - time_time (env (world fleet_silent))
   < 60)%Q /\
  hd_error (effects (out (_do_restart_node Agent node1 true (world fleet_silent))))
  = Some (Broadcast node1 Restart) /\
  effects (out (_do_restart_node Agent node1 true after_first_restart))
  = [Disable node1] /\
  _buckets (post (_do_restart_node Agent node1 true after_first_restart))
    !! restart_key node1 = None.
Proof.
  assert (Hsoon : (time_time (env after_first_restart)
                   - time_time (env (world fleet_silent)) < 60)%Q).
  { vm_compute. reflexivity. }
  assert (Hgate : gate_open (world fleet_silent)) by (left; reflexivity).
  assert (Hgate2 : gate_open after_first_restart).
  { left. vm_compute. reflexivity. }
  assert (Hnone : _buckets (world fleet_silent) !! restart_key node1 = None).
  { vm_compute. reflexivity. }
  assert (Hsame : _buckets after_first_restart !! restart_key node1
                  = _buckets (post (_do_restart_node Agent node1 true
                                      (world fleet_silent)))
                      !! restart_key node1).
  { vm_compute. reflexivity. }
  destruct (second_restart_within_a_minute_disables Agent node1
              (world fleet_silent) after_first_restart
              Hnone Hgate Hsame Hgate2 Hsoon) as (H1 & H2 & H3).
  vm_compute in H1. vm_compute in H2. vm_compute in H3.
  split; [exact Hsoon|]. vm_compute. exact (conj H1 (conj H2 H3)).
Defined.

End Cases.

Module ShellCases.

Import App ShellDrills.

Lemma version_flag_short_circuits_witness :
  run_from_argv scs scripted_app (Some ["scs-agent"; "--version"]) []
                (fresh_process smooth)
  = mkRun (Raises (SystemExit (Some 0))) (fresh_process smooth)
          [Printed "scs v0.1"].
Proof.
  apply (version_flag_short_circuits scs scripted_app
           (Some ["scs-agent"; "--version"]) [] (fresh_process smooth)).
  cbn. set_solver.
Defined.


Lemma command_runs_last_witness :
  Ran ["scs-agent"]
    ∈ trace (run_from_argv scs scripted_app None ["scs-agent"]
                           (fresh_process smooth)) /\
  last (trace (run_from_argv scs scripted_app None ["scs-agent"]
                             (fresh_process smooth)))
  = Some (Ran ["scs-agent"]).
Proof.
  assert (Hran : Ran ["scs-agent"]
                   ∈ trace (run_from_argv scs scripted_app None ["scs-agent"]
                                          (fresh_process smooth))).
  { vm_compute. set_solver. }
  destruct (command_runs_last scs scripted_app None ["scs-agent"]
              (fresh_process smooth) ["scs-agent"] Hran) as (_ & _ & Hlast).
  exact (conj Hran Hlast).
Defined.

(** The interrupt of the command leaves as [SystemExit()], after the
    configuration, the synchronisation and the pool set-up. *)
Example interrupted_command :
  run_from_argv scs scripted_app None ["scs-agent"] (fresh_process interrupted)
  = mkRun (Raises (SystemExit None))
          (mkProcess unix_getpass (Some "/srv/scs") interrupted)
          [SetupEnviron; CallCommand "syncdb" true fallback_getpass;
           SetLimit; TakePool; Ran ["scs-agent"]].
Proof. vm_compute. reflexivity. Qed.

(** A failing synchronisation ends the run before the command. *)
Example failed_syncdb :
  run_from_argv scs scripted_app None ["scs-agent"]
                (fresh_process broken_database)
  = mkRun (Raises (OtherError "DatabaseError"))
          (mkProcess unix_getpass (Some "/srv/scs") broken_database)
          [ImergeSettings; CallCommand "syncdb" true fallback_getpass].
Proof. vm_compute. reflexivity. Qed.

End ShellCases.
